(** * ensure_file: a shallow embedding of [ensure_file.py]

    The tool edits one text file per invocation with one of four
    operations (ensure a line, ensure a marker-delimited block, replace an
    exact line, replace lines by regular expression) and reports the
    outcome through the process exit status.

    The embedding follows the source function by function:
    - Python [str] values are lists of Unicode code points;
    - the [str] methods the source calls ([splitlines], [join], [rstrip],
      [lstrip], [strip], [in], [index], slicing) are Rocq functions;
    - the process (file system, standard streams, [sys.exit] and the other
      exceptions) is an exception-and-state monad over a [world]. *)

From stdpp Require Import base list gmap numbers strings.

Open Scope N_scope.

(** ** Text *)

(** A Python [str] is a sequence of code points. *)
Abbreviation char := N (only parsing).
Abbreviation str := (list N) (only parsing).

Definition LF : char := 10.
Definition CR : char := 13.

(** Line boundaries of [str.splitlines]: \n \v \f \r \x1c \x1d \x1e \x85
        (and \r\n, handled in [splitlines]). *)
Definition is_linebreak (c : char) : bool :=
  (c =? 10) || (c =? 11) || (c =? 12) || (c =? 13) || (c =? 28) || (c =? 29)
  || (c =? 30) || (c =? 133) || (c =? 8232) || (c =? 8233).

(** [str.isspace] on one code point: what [strip], [lstrip] and [rstrip]
    remove when called without argument. *)
Definition isspace (c : char) : bool :=
  ((9 <=? c) && (c <=? 13)) || ((28 <=? c) && (c <=? 32)) || (c =? 133)
  || (c =? 160) || (c =? 5760) || ((8192 <=? c) && (c <=? 8202))
  || (c =? 8232) || (c =? 8233) || (c =? 8239) || (c =? 8287) || (c =? 12288).

(** Puts [c] in front of the first line of [ls]. *)
Definition cons_first (c : char) (ls : list str) : list str :=
  match ls with
  | [] => [[c]]
  | l :: ls' => (c :: l) :: ls'
  end.

(** [s.splitlines()]: the lines of [s] without their terminators; \r\n is one
    terminator, and a terminator at the very end opens no further line. *)
Fixpoint splitlines (s : str) : list str :=
  match s with
  | [] => []
  | c :: t =>
      if is_linebreak c then
        [] :: match t with
              | d :: t' => if (c =? CR) && (d =? LF) then splitlines t'
                           else splitlines t
              | [] => []
              end
      else cons_first c (splitlines t)
  end.

(** [sep.join(ls)]. *)
Fixpoint join (sep : str) (ls : list str) : str :=
  match ls with
  | [] => []
  | [l] => l
  | l :: ls' => l ++ sep ++ join sep ls'
  end.

(** [s.lstrip()], [s.rstrip()], [s.strip()]. *)
Fixpoint lstrip (s : str) : str :=
  match s with
  | [] => []
  | c :: t => if isspace c then lstrip t else s
  end.

Definition rstrip (s : str) : str := reverse (lstrip (reverse s)).

Definition strip (s : str) : str := lstrip (rstrip s).

(** [s.startswith(p)]. *)
Fixpoint startswith (p s : str) : bool :=
  match p, s with
  | [], _ => true
  | _ :: _, [] => false
  | a :: p', b :: s' => (a =? b) && startswith p' s'
  end.

(** [s.find(sub)]: the lowest index where [sub] occurs in [s], counted from
    [i]; [None] where Python returns -1. *)
Fixpoint find_from (i : nat) (sub s : str) : option nat :=
  if startswith sub s then Some i
  else match s with
       | [] => None
       | _ :: t => find_from (S i) sub t
       end.

Definition find (sub s : str) : option nat := find_from 0 sub s.

(** [sub in s]. *)
Definition contains (sub s : str) : bool :=
  match find sub s with Some _ => true | None => false end.

(** Text-mode decoding as [open] does it with the default [newline=None]
    (universal newlines): \r\n and lone \r are read as \n. *)
Fixpoint universal_newlines (s : str) : str :=
  match s with
  | [] => []
  | c :: t =>
      if c =? CR then
        LF :: match t with
              | d :: t' => if d =? LF then universal_newlines t'
                           else universal_newlines t
              | [] => []
              end
      else c :: universal_newlines t
  end.

(** Code points of an ASCII literal, to write examples. *)
Definition lit (s : string) : str :=
  map (λ a, N.of_nat (Ascii.nat_of_ascii a)) (String.list_ascii_of_string s).
Arguments lit s%_string.

(** The lines of [ls], each followed by \n. *)
Definition unlines (ls : list str) : str := concat (map (λ l, l ++ [LF]) ls).

(** ** The process and its world *)

Abbreviation path := (list N) (only parsing).

(** A regular file: its decoded text as stored, and whether the process may
    read and write it. *)
Record file := File { f_text : str; f_readable : bool; f_writable : bool }.

(** The exceptions the program meets. Every one but [SystemExit] is an
    [Exception] for the handler of [main]. *)
Inductive exn :=
| SystemExit (code : Z)
| FileNotFoundError
| PermissionError
| EOFError
| ValueError.

(** What the program prints, one constructor per [print] call of the source. *)
Inductive message :=
| MsgNoChangesNeeded (p : path)            (* "No changes needed for {path}" *)
| MsgDiff (old new : str) (p : path)       (* the unified diff *)
| MsgPrompt                                (* "Apply changes? [y/N]: " *)
| MsgFileNotFound (p : path)               (* "File not found: {path}" *)
| MsgPermissionDenied (p : path)           (* "Permission denied: {path}" *)
| MsgLineAlreadyPresent (p : path)         (* "Line already present in {path}" *)
| MsgUpdated (p : path)                    (* "Updated {path}" *)
| MsgBlockAlreadyCorrect (p : path)        (* "Block already correct in {path}" *)
| MsgNoExactMatch (p : path)               (* "No exact match found for replacement in {path}" *)
| MsgLineMatchedAlreadyCorrect (p : path)  (* "Line matched but already correct in {path}" *)
| MsgNoRegexMatches (p : path)             (* "No regex matches found in {path}" *)
| MsgRegexNoChanges (p : path)             (* "Regex match found, but no changes needed in {path}" *)
| MsgUsage                                 (* "Error: Must specify --line, ..." *)
| MsgUnhandled (e : exn).                  (* "Unhandled error: {e}" *)

(** [w_stdin] holds the lines still to be read; [w_stdout] and [w_stderr]
    what has been printed, oldest first; [w_writes] every completed
    [write_text] call, oldest first. *)
Record world := World {
  w_fs : gmap path file;
  w_stdin : list str;
  w_stdout : list message;
  w_stderr : list message;
  w_writes : list (path * str)
}.

Definition EXIT_OK : Z := 0.
Definition EXIT_GENERIC_FAIL : Z := 1.
Definition EXIT_PERMISSIONS : Z := 2.
Definition EXIT_NO_MATCH : Z := 3.
Definition EXIT_NO_CHANGE_NEEDED : Z := 4.
Definition EXIT_NOT_FOUND : Z := 5.

(** A computation either raises or returns, and leaves a world behind. *)
Definition proc (A : Type) : Type := world → (exn + A) * world.

Global Instance proc_ret : MRet proc := λ A a w, (inr a, w).

Global Instance proc_bind : MBind proc := λ A B k m w,
  match m w with
  | (inl e, w') => (inl e, w')
  | (inr a, w') => k a w'
  end.

Definition raise {A} (e : exn) : proc A := λ w, (inl e, w).

(** [try: m except ...: h]; [h e = None] when no clause catches [e]. *)
Definition try_except {A} (m : proc A) (h : exn → option (proc A)) : proc A :=
  λ w, match m w with
       | (inl e, w') => match h e with
                        | Some k => k w'
                        | None => (inl e, w')
                        end
       | r => r
       end.

Definition when (b : bool) (m : proc unit) : proc unit :=
  if b then m else mret tt.

Definition sys_exit {A} (code : Z) : proc A := raise (SystemExit code).

(** The world after one more message on standard output, on standard
    error. *)
Definition put_stdout (m : message) (w : world) : world :=
  World (w_fs w) (w_stdin w) (w_stdout w ++ [m]) (w_stderr w) (w_writes w).

Definition put_stderr (m : message) (w : world) : world :=
  World (w_fs w) (w_stdin w) (w_stdout w) (w_stderr w ++ [m]) (w_writes w).

(** The world after [f] was stored at [p] by a write of the text [s]. *)
Definition put_file (p : path) (f : file) (s : str) (w : world) : world :=
  World (<[p := f]> (w_fs w)) (w_stdin w) (w_stdout w) (w_stderr w)
        (w_writes w ++ [(p, s)]).

(** [print(m)] and [print(m, file=sys.stderr)]. *)
Definition print (m : message) : proc unit := λ w, (inr tt, put_stdout m w).

Definition eprint (m : message) : proc unit := λ w, (inr tt, put_stderr m w).

(** [input(prompt)]: the prompt goes to standard output, one line is taken
    from standard input, [EOFError] when there is none. *)
Definition input (prompt : message) : proc str := λ w,
  let w' := put_stdout prompt w in
  match w_stdin w with
  | [] => (inl EOFError, w')
  | l :: rest =>
      (inr l, World (w_fs w') rest (w_stdout w') (w_stderr w') (w_writes w'))
  end.

(** [path.exists()]. *)
Definition path_exists (p : path) : proc bool := λ w,
  (inr (bool_decide (is_Some (w_fs w !! p))), w).

(** [path.read_text(encoding="utf-8")]. *)
Definition read_text (p : path) : proc str := λ w,
  match w_fs w !! p with
  | None => (inl FileNotFoundError, w)
  | Some f => if f_readable f then (inr (universal_newlines (f_text f)), w)
              else (inl PermissionError, w)
  end.

(** [path.write_text(s, encoding="utf-8")] where the line separator is \n:
    replaces the whole text, creating the file when there is none. *)
Definition write_text (p : path) (s : str) : proc unit := λ w,
  match w_fs w !! p with
  | None => (inr tt, put_file p (File s true true) s w)
  | Some f => if f_writable f
              then (inr tt, put_file p (File s (f_readable f) true) s w)
              else (inl PermissionError, w)
  end.

(** [s.index(sub)]. *)
Definition index (sub s : str) : proc nat :=
  match find sub s with
  | Some i => mret i
  | None => raise ValueError
  end.

(** [resp.lower() == "y"]: Y is the only other code point whose lower case
    is y. *)
Definition lower_is_y (resp : str) : bool :=
  bool_decide (resp = lit "y") || bool_decide (resp = lit "Y").

(** ** The program *)

Definition exit_ok_or_noop {A} (idempotent_ok : bool) : proc A :=
  sys_exit (if idempotent_ok then EXIT_OK else EXIT_NO_CHANGE_NEEDED).

(** Returns [None] for "no change", else whether the change is approved. *)
Definition show_diff_and_confirm (old new : str) (p : path)
    (force quiet : bool) : proc (option bool) :=
  if bool_decide (old = new) then
    when (negb quiet) (print (MsgNoChangesNeeded p));;
    mret None
  else
    when (negb quiet) (print (MsgDiff old new p));;
    if force then mret (Some true)
    else resp ← input MsgPrompt;
         mret (Some (lower_is_y (strip resp))).

Definition safe_read (p : path) (quiet : bool) : proc str :=
  try_except (read_text p)
    (λ e, match e with
          | FileNotFoundError =>
              Some (when (negb quiet) (eprint (MsgFileNotFound p));;
                    sys_exit EXIT_NOT_FOUND)
          | PermissionError =>
              Some (when (negb quiet) (eprint (MsgPermissionDenied p));;
                    sys_exit EXIT_PERMISSIONS)
          | _ => None
          end).

(** The lines from [confirmed = show_diff_and_confirm(...)] to the end, which
    the four operations share word for word. *)
Definition confirm_and_write (old new : str) (p : path)
    (force quiet idempotent_ok : bool) : proc unit :=
  confirmed ← show_diff_and_confirm old new p force quiet;
  match confirmed with
  | None => exit_ok_or_noop idempotent_ok
  | Some true =>
      try_except (write_text p new)
        (λ e, match e with
              | PermissionError =>
                  Some (when (negb quiet) (eprint (MsgPermissionDenied p));;
                        sys_exit EXIT_PERMISSIONS)
              | _ => None
              end);;
      when (negb quiet) (print (MsgUpdated p));;
      sys_exit EXIT_OK
  | Some false => exit_ok_or_noop idempotent_ok
  end.

Definition ensure_line (p : path) (line : str)
    (force quiet idempotent_ok : bool) : proc unit :=
  ex ← path_exists p;
  old ← (if ex : bool then safe_read p quiet else mret []);
  let lines := splitlines old in
  (if bool_decide (line ∈ lines) then
     when (negb quiet) (print (MsgLineAlreadyPresent p));;
     exit_ok_or_noop idempotent_ok
   else mret tt);;
  let lines := lines ++ [line] in
  let new := join [LF] lines ++ [LF] in
  confirm_and_write old new p force quiet idempotent_ok.

(** The text [ensure_block] wants in the file. *)
Definition block_target (old : str) (block_lines : list str)
    (marker_start marker_end : str) : proc str :=
  let block := join [LF] ([marker_start] ++ block_lines ++ [marker_end]) in
  if contains marker_start old && contains marker_end old then
    start ← index marker_start old;
    e ← index marker_end old;
    let end_ := (e + length marker_end)%nat in
    let before := rstrip (take start old) in
    let after := lstrip (drop end_ old) in
    mret (before ++ [LF] ++ block ++ [LF] ++ after)
  else
    let prefix := rstrip old in
    match prefix with
    | _ :: _ => mret (prefix ++ [LF] ++ block ++ [LF])
    | [] => mret (block ++ [LF])
    end.

Definition ensure_block (p : path) (block_lines : list str)
    (marker_start marker_end : str)
    (force quiet idempotent_ok : bool) : proc unit :=
  ex ← path_exists p;
  old ← (if ex : bool then safe_read p quiet else mret []);
  new ← block_target old block_lines marker_start marker_end;
  (if bool_decide (old = new) then
     when (negb quiet) (print (MsgBlockAlreadyCorrect p));;
     exit_ok_or_noop idempotent_ok
   else mret tt);;
  confirm_and_write old new p force quiet idempotent_ok.

(** The three variables the [for] loops of the replace operations update. *)
Record scan := Scan {
  match_found : bool;
  changed : bool;
  new_lines : list str
}.

Definition replace_line_step (old_line new_line : str) (st : scan) (l : str)
    : scan :=
  if bool_decide (l = old_line) then
    if bool_decide (l ≠ new_line) then
      Scan true true (new_lines st ++ [new_line])
    else Scan true (changed st) (new_lines st ++ [l])
  else Scan (match_found st) (changed st) (new_lines st ++ [l]).

Definition replace_line (p : path) (old_line new_line : str)
    (force quiet idempotent_ok : bool) : proc unit :=
  old ← safe_read p quiet;
  let lines := splitlines old in
  let st := foldl (replace_line_step old_line new_line)
                  (Scan false false []) lines in
  (if negb (match_found st) then
     when (negb quiet) (print (MsgNoExactMatch p));;
     sys_exit EXIT_NO_MATCH
   else mret tt);;
  (if negb (changed st) then
     when (negb quiet) (print (MsgLineMatchedAlreadyCorrect p));;
     exit_ok_or_noop idempotent_ok
   else mret tt);;
  let new := join [LF] (new_lines st) ++ [LF] in
  confirm_and_write old new p force quiet idempotent_ok.

(** The two functions of Python's [re] module the program calls, for
    patterns and replacement templates that compile: [re_search pat l] is
    [re.search(pat, l)] being a match, [re_sub pat repl l] is
    [re.sub(pat, repl, l)]. *)
Class Regex := {
  re_search : str → str → bool;
  re_sub : str → str → str → str
}.

(** The command line after [parser.parse_args()]. *)
Record args := Args {
  filepath : path;
  line : option str;
  block : option (list str);
  start : option str;
  end_ : option str;
  replace : option (str * str);
  replace_re : option (str * str);
  force : bool;
  quiet : bool;
  idempotent_fail : bool
}.

Section WithRegex.
Context {re : Regex}.

Definition replace_line_re_step (pattern replacement : str) (st : scan)
    (l : str) : scan :=
  let found := if re_search pattern l then true else match_found st in
  let new_l := re_sub pattern replacement l in
  let chg := if bool_decide (new_l ≠ l) then true else changed st in
  Scan found chg (new_lines st ++ [new_l]).

Definition replace_line_re (p : path) (pattern replacement : str)
    (force quiet idempotent_ok : bool) : proc unit :=
  old ← safe_read p quiet;
  let lines := splitlines old in
  let st := foldl (replace_line_re_step pattern replacement)
                  (Scan false false []) lines in
  (if negb (match_found st) then
     when (negb quiet) (print (MsgNoRegexMatches p));;
     sys_exit EXIT_NO_MATCH
   else mret tt);;
  (if negb (changed st) then
     when (negb quiet) (print (MsgRegexNoChanges p));;
     exit_ok_or_noop idempotent_ok
   else mret tt);;
  let new := join [LF] (new_lines st) ++ [LF] in
  confirm_and_write old new p force quiet idempotent_ok.

(** [main], after argument parsing. An option is truthy when it was given
    and is not the empty string. *)
Definition main (a : args) : proc unit :=
  try_except
    match line a, block a, start a, end_ a, replace a, replace_re a with
    | Some (c :: l), _, _, _, _, _ =>
        ensure_line (filepath a) (c :: l) (force a) (quiet a)
                    (negb (idempotent_fail a))
    | _, Some (b :: bs), Some (c :: s), Some (d :: e), _, _ =>
        ensure_block (filepath a) (b :: bs) (c :: s) (d :: e) (force a)
                     (quiet a) (negb (idempotent_fail a))
    | _, _, _, _, Some (old_line, new_line), _ =>
        replace_line (filepath a) old_line new_line (force a) (quiet a)
                     (negb (idempotent_fail a))
    | _, _, _, _, _, Some (pattern, replacement) =>
        replace_line_re (filepath a) pattern replacement (force a) (quiet a)
                        (negb (idempotent_fail a))
    | _, _, _, _, _, _ =>
        eprint MsgUsage;;
        sys_exit EXIT_GENERIC_FAIL
    end
    (λ e, match e with
          | SystemExit _ => None
          | _ => Some (eprint (MsgUnhandled e);;
                       sys_exit EXIT_GENERIC_FAIL)
          end).

End WithRegex.

(** The exit status of the process and the world it leaves: the code of
    [SystemExit], 0 on normal return, 1 when an exception is not caught. *)
Definition run (m : proc unit) (w : world) : Z * world :=
  match m w with
  | (inl (SystemExit c), w') => (c, w')
  | (inl _, w') => (1%Z, w')
  | (inr _, w') => (0%Z, w')
  end.

(** ** A regular-expression engine for literal patterns

    For a pattern without metacharacters and a template without
    backslashes, [re.search] is substring search and [re.sub] replaces the
    non-overlapping occurrences from left to right. *)

Fixpoint literal_sub_from (skip : nat) (pat repl s : str) : str :=
  match s with
  | [] => []
  | c :: t =>
      match skip with
      | S k => literal_sub_from k pat repl t
      | O => if startswith pat s
             then repl ++ literal_sub_from (length pat - 1) pat repl t
             else c :: literal_sub_from 0 pat repl t
      end
  end.

Definition literal_sub (pat repl s : str) : str :=
  match pat with
  | [] => repl ++ concat (map (λ c, c :: repl) s)
  | _ :: _ => literal_sub_from 0 pat repl s
  end.

Definition literal_regex : Regex :=
  {| re_search := contains; re_sub := literal_sub |}.

(** ** The end-to-end scenarios of the test suite *)

Definition conf : path := lit "/tmp/ensure_python_test.conf".

(** A world whose only file is [conf], readable and writable, holding
    [text]; nothing on standard input. *)
Definition world_with (text : str) : world :=
  World {[ conf := File text true true ]} [] [] [] [].

Definition text_of (w : world) (p : path) : option str :=
  f_text <$> w_fs w !! p.

Definition args_line (p : path) (l : str) (f q i : bool) : args :=
  Args p (Some l) None None None None None f q i.

Definition args_block (p : path) (b : list str) (s e : str) (f q i : bool)
    : args :=
  Args p None (Some b) (Some s) (Some e) None None f q i.

Definition args_replace (p : path) (old_line new_line : str) (f q i : bool)
    : args :=
  Args p None None None None (Some (old_line, new_line)) None f q i.

Definition args_replace_re (p : path) (pattern replacement : str)
    (f q i : bool) : args :=
  Args p None None None None None (Some (pattern, replacement)) f q i.

(** ** Vocabulary of the properties *)

(** [l] holds no line boundary character. *)
Definition no_linebreak (l : str) : Prop :=
  Forall (λ c, is_linebreak c = false) l.

(** [s] consists of white space only. *)
Definition whitespace (s : str) : Prop := Forall (λ c, isspace c = true) s.

(** [s] ends with a newline. *)
Definition ends_with_newline (s : str) : Prop := last s = Some LF.

(** [s] ends with exactly one newline: with \n, and not with \n\n. *)
Definition one_trailing_newline (s : str) : Prop :=
  ∃ t, s = t ++ [LF] ∧ last t ≠ Some LF.



(** The world after an informational message, which quiet mode drops. *)
Definition say (quiet : bool) (m : message) (w : world) : world :=
  if quiet then w else put_stdout m w.

Definition say_err (quiet : bool) (m : message) (w : world) : world :=
  if quiet then w else put_stderr m w.

(** The status "no change needed" maps to. *)
Definition noop_code (idempotent_ok : bool) : Z :=
  if idempotent_ok then EXIT_OK else EXIT_NO_CHANGE_NEEDED.

(** How the shared tail ends once the change is approved: the write, then
    status 0, or status 2 when the file may not be written. *)
Definition write_outcome (new : str) (p : path) (quiet : bool) (w : world)
    : (exn + unit) * world :=
  match w_fs w !! p with
  | Some f =>
      if f_writable f
      then (inl (SystemExit EXIT_OK),
            say quiet (MsgUpdated p)
              (put_file p (File new (f_readable f) true) new w))
      else (inl (SystemExit EXIT_PERMISSIONS),
            say_err quiet (MsgPermissionDenied p) w)
  | None =>
      (inl (SystemExit EXIT_OK),
       say quiet (MsgUpdated p) (put_file p (File new true true) new w))
  end.

(** The world after one line was read from standard input. *)
Definition take_line (rest : list str) (w : world) : world :=
  World (w_fs w) rest (w_stdout w) (w_stderr w) (w_writes w).

(** The world after a forced change of [p] from [old] to [new], when [p] can
    be written. *)
Definition forced_write (old new : str) (p : path) (quiet : bool) (w : world)
    : world :=
  let readable := from_option f_readable true (w_fs w !! p) in
  say quiet (MsgUpdated p)
    (put_file p (File new readable true) new
       (say quiet (MsgDiff old new p) w)).

(** The text [safe_read] returns, when it returns. *)
Definition readable_text (w : world) (p : path) : option str :=
  match w_fs w !! p with
  | Some f => if f_readable f then Some (universal_newlines (f_text f))
              else None
  | None => None
  end.

(** The old text of the two ensure operations, for which a file that does
    not exist reads as empty. *)
Definition ensure_text (w : world) (p : path) : option str :=
  match w_fs w !! p with
  | Some f => if f_readable f then Some (universal_newlines (f_text f))
              else None
  | None => Some []
  end.

(** [p] can be written: it is writable, or absent and can be created. *)
Definition writable (w : world) (p : path) : Prop :=
  from_option f_writable true (w_fs w !! p) = true.

(** The texts written between the worlds [w] and [w']. *)
Definition writes_since (w w' : world) : list (path * str) :=
  drop (length (w_writes w)) (w_writes w').

(** What Replace-Exact-Line makes of a line. *)
Definition replaced (old_line new_line l : str) : str :=
  if bool_decide (l = old_line) then new_line else l.

(** Whether substitution changes the line [l]. *)
Definition changed_by {re : Regex} (pattern replacement l : str) : bool :=
  bool_decide (re_sub pattern replacement l ≠ l).

(** The canonical block: the markers around the body lines, joined by
    newlines. *)
Definition canonical_block (block_lines : list str)
    (marker_start marker_end : str) : str :=
  join [LF] ([marker_start] ++ block_lines ++ [marker_end]).

(** The value [block_target] returns. *)
Definition block_candidate (old : str) (block_lines : list str)
    (marker_start marker_end : str) : str :=
  let block := canonical_block block_lines marker_start marker_end in
  match find marker_start old, find marker_end old with
  | Some i, Some j =>
      rstrip (take i old) ++ [LF] ++ block ++ [LF]
      ++ lstrip (drop (j + length marker_end) old)
  | _, _ =>
      match rstrip old with
      | [] => block ++ [LF]
      | prefix => prefix ++ [LF] ++ block ++ [LF]
      end
  end.


Definition world_empty : world := World ∅ [] [] [] [].

(** ** Vocabulary of the further properties *)

(** The [except Exception] clause of [main]. *)
Definition except_exception : exn → option (proc unit) :=
  λ e, match e with
       | SystemExit _ => None
       | _ => Some (eprint (MsgUnhandled e);; sys_exit EXIT_GENERIC_FAIL)
       end.

(** The command line [a] with [-f] given or not. *)
Definition set_force (b : bool) (a : args) : args :=
  Args (filepath a) (line a) (block a) (start a) (end_ a) (replace a)
       (replace_re a) b (quiet a) (idempotent_fail a).

(** The operation [main] selects, as a function of the force flag; [None]
    when it selects none and reports the usage error. *)
Definition selected {re : Regex} (a : args) : option (bool → proc unit) :=
  match line a, block a, start a, end_ a, replace a, replace_re a with
  | Some (c :: l), _, _, _, _, _ =>
      Some (λ f, ensure_line (filepath a) (c :: l) f (quiet a)
                   (negb (idempotent_fail a)))
  | _, Some (b :: bs), Some (c :: s), Some (d :: e), _, _ =>
      Some (λ f, ensure_block (filepath a) (b :: bs) (c :: s) (d :: e) f
                   (quiet a) (negb (idempotent_fail a)))
  | _, _, _, _, Some (old_line, new_line), _ =>
      Some (λ f, replace_line (filepath a) old_line new_line f (quiet a)
                   (negb (idempotent_fail a)))
  | _, _, _, _, _, Some (pattern, replacement) =>
      Some (λ f, replace_line_re (filepath a) pattern replacement f (quiet a)
                   (negb (idempotent_fail a)))
  | _, _, _, _, _, _ => None
  end.

(** The answer waiting on standard input approves a change: its first line,
    trimmed, is y or Y. *)
Definition approves (w : world) : bool :=
  match w_stdin w with
  | resp :: _ => lower_is_y (strip resp)
  | [] => false
  end.

(** The three ways an operation [f], taken as a function of the force flag,
    can go in the world [w]: it ends with an informational message and the
    status for "no change needed" or "no match"; it ends with an error
    message and the status for "permission denied" or "not found"; or it has
    a change from [old] to [new] and goes to the confirmation. *)
Definition op_shape (p : path) (quiet idempotent_ok : bool)
    (f : bool → proc unit) (w : world) : Prop :=
  (∃ c m, (c = noop_code idempotent_ok ∨ c = EXIT_NO_MATCH) ∧
          ∀ force, f force w = (inl (SystemExit c), say quiet m w)) ∨
  (∃ c m, (c = EXIT_PERMISSIONS ∨ c = EXIT_NOT_FOUND) ∧
          ∀ force, f force w = (inl (SystemExit c), say_err quiet m w)) ∨
  (∃ old new, old ≠ new ∧
              ∀ force, f force w
                       = confirm_and_write old new p force quiet
                           idempotent_ok w).

(** The only line boundaries of [s] are \n characters. *)
Definition lf_only (s : str) : Prop :=
  Forall (λ c, is_linebreak c = true → c = LF) s.

(** What [main] makes of the confirmation of a change from [old] to [new]:
    with force the write; without, the answer decides, and end of input at
    the prompt is an unhandled [EOFError]. *)
Definition confirmed_run (old new : str) (p : path)
    (force quiet idempotent_ok : bool) (w : world) : Z * world :=
  let w1 := say quiet (MsgDiff old new p) w in
  if force then run (write_outcome new p quiet) w1
  else match w_stdin w1 with
       | [] => (EXIT_GENERIC_FAIL,
                put_stderr (MsgUnhandled EOFError) (put_stdout MsgPrompt w1))
       | resp :: rest =>
           let w2 := take_line rest (put_stdout MsgPrompt w1) in
           if lower_is_y (strip resp)
           then run (write_outcome new p quiet) w2
           else (noop_code idempotent_ok, w2)
       end.

(** A world whose only file is [conf], which may be read but not
    written. *)
Definition world_read_only : world :=
  World {[ conf := File (lit "a" ++ [LF]) true false ]} [] [] [] [].

(** The newline a text lacks at its end: none for the empty text and for a
    text that ends with \n. *)
Definition missing_newline (s : str) : str :=
  match last s with
  | Some c => if c =? LF then [] else [LF]
  | None => []
  end.

(** ** Examples of the text functions *)

Example splitlines_ex :
  splitlines (lit "a" ++ [CR; LF] ++ lit "b" ++ [LF; LF] ++ lit "c")
  = [lit "a"; lit "b"; []; lit "c"].
Proof. reflexivity. Qed.

Example splitlines_trailing : splitlines (lit "a" ++ [LF]) = [lit "a"].
Proof. reflexivity. Qed.

Example rstrip_ex : rstrip (lit " a b " ++ [LF; LF]) = lit " a b".
Proof. reflexivity. Qed.

Example find_ex : find (lit "cd") (lit "abcdcd") = Some 2%nat.
Proof. reflexivity. Qed.

Section Scenarios.
Local Existing Instance literal_regex.

(* test_ensure_line_on_empty_file *)
Example scenario_line_on_empty :
  let r := run (main (args_line conf (lit "new_line = 1") true true false))
               (world_with []) in
  r.1 = 0%Z ∧ text_of r.2 conf = Some (lit "new_line = 1" ++ [LF]).
Proof. repeat split; vm_compute; reflexivity. Qed.

(* test_replace_line_exact *)
Example scenario_replace_exact :
  let r := run (main (args_replace conf (lit "loglevel = debug")
                        (lit "loglevel = warning") true true false))
               (world_with (lit "loglevel = debug" ++ [LF])) in
  r.1 = 0%Z ∧ text_of r.2 conf = Some (lit "loglevel = warning" ++ [LF]).
Proof. repeat split; vm_compute; reflexivity. Qed.

(* test_block_with_context, second call *)
Example scenario_block_with_context :
  let r := run (main (args_block conf [lit "A"; lit "CHANGED"] (lit "# BEGIN")
                        (lit "# END") true true false))
               (world_with (unlines [lit "before"; lit "# BEGIN"; lit "A";
                                     lit "B"; lit "# END"; lit "after"])) in
  r.1 = 0%Z ∧
  splitlines <$> text_of r.2 conf
  = Some [lit "before"; lit "# BEGIN"; lit "A"; lit "CHANGED"; lit "# END";
          lit "after"].
Proof. repeat split; vm_compute; reflexivity. Qed.

(* test_replace_re_no_match *)
Example scenario_replace_re_no_match :
  let w := world_with (lit "foo=bar" ++ [LF]) in
  let r := run (main (args_replace_re conf (lit "nosuchpattern") (lit "noop")
                        false true false)) w in
  r.1 = 3%Z ∧ w_fs r.2 = w_fs w ∧ w_writes r.2 = [].
Proof. repeat split; vm_compute; reflexivity. Qed.

End Scenarios.

(** ** Facts about text *)

Lemma str_ind2 (P : list N → Prop) :
  P [] → (∀ c, P [c]) → (∀ c d t, P t → P (d :: t) → P (c :: d :: t)) →
  ∀ s, P s.
Proof.
  intros H0 H1 H2 s. cut (P s ∧ ∀ c, P (c :: s)); [tauto|].
  induction s as [|d t [IH1 IH2]]; split; auto.
Qed.

Lemma splitlines_cons_text c t :
  is_linebreak c = false → splitlines (c :: t) = cons_first c (splitlines t).
Proof. intros H. simpl. by rewrite H. Qed.

Lemma splitlines_cons_break c t :
  is_linebreak c = true → c ≠ CR → splitlines (c :: t) = [] :: splitlines t.
Proof.
  intros H Hc. simpl. rewrite H.
  destruct t as [|d t]; [done|].
  by destruct (N.eqb_spec c CR).
Qed.

Lemma splitlines_LF t : splitlines (LF :: t) = [] :: splitlines t.
Proof. by apply splitlines_cons_break. Qed.

Lemma splitlines_CRLF t : splitlines (CR :: LF :: t) = [] :: splitlines t.
Proof. done. Qed.

Lemma splitlines_CR d t :
  d ≠ LF → splitlines (CR :: d :: t) = [] :: splitlines (d :: t).
Proof.
  intros Hd. change (splitlines (CR :: d :: t))
    with ([] :: if (CR =? CR) && (d =? LF) then splitlines t
                else splitlines (d :: t)).
  by destruct (N.eqb_spec d LF).
Qed.

Lemma splitlines_nonempty s : s ≠ [] → splitlines s ≠ [].
Proof.
  destruct s as [|c t]; [done|]. intros _. simpl.
  destruct (is_linebreak c); [done|]. by destruct (splitlines t).
Qed.

Lemma cons_first_app c xs ys :
  xs ≠ [] → cons_first c (xs ++ ys) = cons_first c xs ++ ys.
Proof. by destruct xs. Qed.

Lemma splitlines_app_LF a b :
  splitlines (a ++ LF :: b) = splitlines (a ++ [LF]) ++ splitlines b.
Proof.
  induction a as [|c|c d t IHt IHd] using str_ind2.
  - cbn [app]. by rewrite !splitlines_LF.
  - destruct (is_linebreak c) eqn:Hc.
    + destruct (decide (c = CR)) as [->|Hne]; [done|].
      cbn [app]. rewrite !(splitlines_cons_break c), !splitlines_LF by done.
      done.
    + cbn [app]. rewrite !(splitlines_cons_text c), !splitlines_LF by done.
      done.
  - destruct (is_linebreak c) eqn:Hc.
    + destruct (decide (c = CR)) as [->|Hne].
      * destruct (decide (d = LF)) as [->|Hd].
        -- cbn [app]. rewrite !splitlines_CRLF. by rewrite IHt.
        -- change ((CR :: d :: t) ++ LF :: b) with (CR :: d :: (t ++ LF :: b)).
           change ((CR :: d :: t) ++ [LF]) with (CR :: d :: (t ++ [LF])).
           rewrite !splitlines_CR by done.
           change (d :: t ++ LF :: b) with ((d :: t) ++ LF :: b).
           by rewrite IHd.
      * change ((c :: d :: t) ++ LF :: b) with (c :: ((d :: t) ++ LF :: b)).
        change ((c :: d :: t) ++ [LF]) with (c :: ((d :: t) ++ [LF])).
        rewrite !(splitlines_cons_break c) by done. by rewrite IHd.
    + change ((c :: d :: t) ++ LF :: b) with (c :: ((d :: t) ++ LF :: b)).
      change ((c :: d :: t) ++ [LF]) with (c :: ((d :: t) ++ [LF])).
      rewrite !(splitlines_cons_text c) by done. rewrite IHd.
      apply cons_first_app, splitlines_nonempty. done.
Qed.

Lemma splitlines_line_LF m : no_linebreak m → splitlines (m ++ [LF]) = [m].
Proof.
  induction 1 as [|c m Hc _ IH]; [done|].
  cbn [app]. by rewrite splitlines_cons_text, IH.
Qed.

Lemma unlines_cons l ls : unlines (l :: ls) = l ++ LF :: unlines ls.
Proof. unfold unlines. cbn [map concat]. by rewrite <-app_assoc. Qed.

Lemma splitlines_unlines_concat ls :
  splitlines (unlines ls) = concat (map (λ l, splitlines (l ++ [LF])) ls).
Proof.
  induction ls as [|l ls IH]; [done|].
  rewrite unlines_cons, splitlines_app_LF, IH. done.
Qed.

Lemma splitlines_unlines ls :
  Forall no_linebreak ls → splitlines (unlines ls) = ls.
Proof.
  rewrite splitlines_unlines_concat.
  induction 1 as [|l ls Hl _ IH]; [done|].
  cbn [map concat]. by rewrite splitlines_line_LF, IH.
Qed.

Lemma Forall_cons_first (P : str → Prop) c ls :
  (∀ l, P l → P (c :: l)) → P [c] → Forall P ls → Forall P (cons_first c ls).
Proof.
  intros Hstep Hone [|l ls' Hl Hls]; cbn; constructor; auto.
Qed.

Lemma splitlines_no_linebreak s : Forall no_linebreak (splitlines s).
Proof.
  assert (Hnil : no_linebreak []) by constructor.
  induction s as [|c|c d t IHt IHd] using str_ind2.
  - constructor.
  - cbn. destruct (is_linebreak c) eqn:Hc; repeat constructor; done.
  - destruct (is_linebreak c) eqn:Hc.
    + destruct (decide (c = CR)) as [->|Hne].
      * destruct (decide (d = LF)) as [->|Hd].
        -- rewrite splitlines_CRLF. by constructor.
        -- rewrite splitlines_CR by done. by constructor.
      * rewrite splitlines_cons_break by done. by constructor.
    + rewrite splitlines_cons_text by done.
      apply Forall_cons_first; [| |done].
      * intros l Hl. by constructor.
      * by repeat constructor.
Qed.

Lemma length_splitlines_snoc_LF m : (1 ≤ length (splitlines (m ++ [LF])))%nat.
Proof.
  pose proof (splitlines_nonempty (m ++ [LF])) as H.
  destruct (splitlines (m ++ [LF])); [|simpl; lia].
  exfalso. apply H; [|done]. by destruct m.
Qed.

Lemma length_splitlines_unlines ls :
  (length ls ≤ length (splitlines (unlines ls)))%nat.
Proof.
  rewrite splitlines_unlines_concat.
  induction ls as [|l ls IH]; [done|].
  cbn [map concat]. rewrite length_app. cbn [length].
  pose proof (length_splitlines_snoc_LF l). lia.
Qed.

Lemma length_cons_first c ls :
  ls ≠ [] → length (cons_first c ls) = length ls.
Proof. by destruct ls. Qed.

(** Without \r, a text ending in \n that is a single line has no line
    boundary before that \n. *)
Lemma splitlines_single_line m :
  CR ∉ m → length (splitlines (m ++ [LF])) = 1%nat →
  splitlines (m ++ [LF]) = [m].
Proof.
  induction m as [|c m IH]; [done|].
  intros Hcr Hlen. apply not_elem_of_cons in Hcr as [Hc Hcr].
  cbn [app] in *. destruct (is_linebreak c) eqn:Hlb.
  - rewrite splitlines_cons_break in Hlen by done. cbn [length] in Hlen.
    pose proof (length_splitlines_snoc_LF m). lia.
  - rewrite splitlines_cons_text in * by done.
    assert (splitlines (m ++ [LF]) ≠ []) as Hne.
    { apply splitlines_nonempty. by destruct m. }
    rewrite length_cons_first in Hlen by done.
    by rewrite (IH Hcr Hlen).
Qed.

Lemma not_elem_of_unlines c ls l : c ∉ unlines ls → l ∈ ls → c ∉ l.
Proof.
  induction ls as [|a ls IH]; intros Hc Hl.
  - by apply elem_of_nil in Hl.
  - rewrite unlines_cons in Hc. apply not_elem_of_app in Hc as [Ha Hc].
    apply not_elem_of_cons in Hc as [_ Hc].
    apply elem_of_cons in Hl as [->|Hl]; auto.
Qed.

(** A text without \r that has as many lines as [ls] and equals [ls] written
    out line by line has exactly the lines [ls]. *)
Lemma unlines_eq_splitlines ls old :
  CR ∉ old → length ls = length (splitlines old) → unlines ls = old →
  ls = splitlines old.
Proof.
  intros Hcr Hlen <-. rewrite splitlines_unlines_concat in *.
  assert (∀ l, l ∈ ls → CR ∉ l) as Hls.
  { intros l Hl. by eapply not_elem_of_unlines. }
  clear Hcr. induction ls as [|l ls IH]; [done|].
  cbn [map concat length] in *. rewrite length_app in Hlen.
  pose proof (length_splitlines_snoc_LF l) as H1.
  pose proof (length_splitlines_unlines ls) as H2.
  rewrite splitlines_unlines_concat in H2.
  assert (length (splitlines (l ++ [LF])) = 1%nat) as Hone by lia.
  rewrite splitlines_single_line in * by (done || apply Hls; left).
  cbn [length app] in *. f_equal. apply IH; [lia|].
  intros l' Hl'. apply Hls. by right.
Qed.

Lemma join_LF_unlines ls : ls ≠ [] → join [LF] ls ++ [LF] = unlines ls.
Proof.
  induction ls as [|l ls IH]; [done|]. intros _.
  rewrite unlines_cons. destruct ls as [|l' ls]; [done|].
  change (join [LF] (l :: l' :: ls)) with (l ++ [LF] ++ join [LF] (l' :: ls)).
  rewrite <-!app_assoc. cbn [app]. by rewrite IH.
Qed.

Lemma universal_newlines_cons c t :
  c ≠ CR → universal_newlines (c :: t) = c :: universal_newlines t.
Proof. intros Hc. cbn. by destruct (N.eqb_spec c CR). Qed.

Lemma universal_newlines_CRLF t :
  universal_newlines (CR :: LF :: t) = LF :: universal_newlines t.
Proof. done. Qed.

Lemma universal_newlines_CR d t :
  d ≠ LF →
  universal_newlines (CR :: d :: t) = LF :: universal_newlines (d :: t).
Proof.
  intros Hd. change (universal_newlines (CR :: d :: t))
    with (LF :: if d =? LF then universal_newlines t
                else universal_newlines (d :: t)).
  by destruct (N.eqb_spec d LF).
Qed.

Lemma universal_newlines_no_CR s : CR ∉ universal_newlines s.
Proof.
  induction s as [|c|c d t IHt IHd] using str_ind2.
  - by apply not_elem_of_nil.
  - cbn. destruct (N.eqb_spec c CR);
      (apply not_elem_of_cons; split; [done|apply not_elem_of_nil]).
  - destruct (decide (c = CR)) as [->|Hc].
    + destruct (decide (d = LF)) as [->|Hd].
      * rewrite universal_newlines_CRLF. by apply not_elem_of_cons.
      * rewrite universal_newlines_CR by done. by apply not_elem_of_cons.
    + rewrite universal_newlines_cons by done. by apply not_elem_of_cons.
Qed.

(** Decoding with universal newlines keeps the lines. *)
Lemma splitlines_universal_newlines s :
  splitlines (universal_newlines s) = splitlines s.
Proof.
  induction s as [|c|c d t IHt IHd] using str_ind2.
  - done.
  - cbn. by destruct (N.eqb_spec c CR) as [->|Hc].
  - destruct (decide (c = CR)) as [->|Hc].
    + destruct (decide (d = LF)) as [->|Hd].
      * by rewrite universal_newlines_CRLF, splitlines_LF, splitlines_CRLF, IHt.
      * by rewrite universal_newlines_CR, splitlines_LF, splitlines_CR, IHd.
    + rewrite universal_newlines_cons by done.
      destruct (is_linebreak c) eqn:Hlb.
      * by rewrite !(splitlines_cons_break c), IHd.
      * by rewrite !(splitlines_cons_text c), IHd.
Qed.

Lemma lstrip_spec s :
  ∃ ws, s = ws ++ lstrip s ∧ whitespace ws ∧
        ∀ c, head (lstrip s) = Some c → isspace c = false.
Proof.
  induction s as [|c s (ws & Heq & Hws & Hhd)].
  - exists []. repeat split; [constructor|done].
  - cbn. destruct (isspace c) eqn:Hc.
    + exists (c :: ws). repeat split; [by rewrite Heq at 1|by constructor|done].
    + exists []. repeat split; [constructor|]. cbn. congruence.
Qed.

Lemma whitespace_reverse ws : whitespace ws → whitespace (reverse ws).
Proof. unfold whitespace. by rewrite Forall_reverse. Qed.








(** ** Facts about the process *)

Ltac proc_unfold :=
  unfold mbind, proc_bind, mret, proc_ret, when, exit_ok_or_noop, sys_exit,
    raise, try_except, print, eprint, say, say_err, noop_code in *.

Lemma safe_read_eq p quiet w :
  safe_read p quiet w =
  match w_fs w !! p with
  | None =>
      (inl (SystemExit EXIT_NOT_FOUND), say_err quiet (MsgFileNotFound p) w)
  | Some f =>
      if f_readable f then (inr (universal_newlines (f_text f)), w)
      else (inl (SystemExit EXIT_PERMISSIONS),
            say_err quiet (MsgPermissionDenied p) w)
  end.
Proof.
  unfold safe_read, read_text. proc_unfold.
  destruct (w_fs w !! p) as [f|]; [destruct (f_readable f)|];
    try done; by destruct quiet.
Qed.

(** Reading the old text the way the two ensure operations do: a file that
    does not exist reads as the empty text. *)
Lemma read_or_empty_eq {A} p quiet (k : str → proc A) w :
  (ex ← path_exists p;
   old ← (if ex : bool then safe_read p quiet else mret []);
   k old) w =
  match w_fs w !! p with
  | None => k [] w
  | Some f =>
      if f_readable f then k (universal_newlines (f_text f)) w
      else (inl (SystemExit EXIT_PERMISSIONS),
            say_err quiet (MsgPermissionDenied p) w)
  end.
Proof.
  unfold mbind, proc_bind, path_exists.
  destruct (w_fs w !! p) as [f|] eqn:Hf.
  - rewrite bool_decide_true by eauto. rewrite safe_read_eq, Hf.
    by destruct (f_readable f).
  - rewrite bool_decide_false by (by intros [? ?]). done.
Qed.

Lemma safe_read_bind {A} p quiet (k : str → proc A) w :
  (old ← safe_read p quiet; k old) w =
  match w_fs w !! p with
  | None =>
      (inl (SystemExit EXIT_NOT_FOUND), say_err quiet (MsgFileNotFound p) w)
  | Some f =>
      if f_readable f then k (universal_newlines (f_text f)) w
      else (inl (SystemExit EXIT_PERMISSIONS),
            say_err quiet (MsgPermissionDenied p) w)
  end.
Proof.
  unfold mbind, proc_bind. rewrite safe_read_eq.
  destruct (w_fs w !! p) as [f|]; [by destruct (f_readable f)|done].
Qed.

Lemma confirm_and_write_eq old new p force quiet idempotent_ok w :
  confirm_and_write old new p force quiet idempotent_ok w =
  if bool_decide (old = new) then
    (inl (SystemExit (noop_code idempotent_ok)),
     say quiet (MsgNoChangesNeeded p) w)
  else
    let w1 := say quiet (MsgDiff old new p) w in
    if force then write_outcome new p quiet w1
    else match w_stdin w1 with
         | [] => (inl EOFError, put_stdout MsgPrompt w1)
         | resp :: rest =>
             let w2 := take_line rest (put_stdout MsgPrompt w1) in
             if lower_is_y (strip resp) then write_outcome new p quiet w2
             else (inl (SystemExit (noop_code idempotent_ok)), w2)
         end.
Proof.
  assert (Hwrite : ∀ w',
    (try_except (write_text p new)
       (λ e, match e with
             | PermissionError =>
                 Some (when (negb quiet) (eprint (MsgPermissionDenied p));;
                       sys_exit EXIT_PERMISSIONS)
             | _ => None
             end);;
     when (negb quiet) (print (MsgUpdated p));;
     sys_exit EXIT_OK) w' = write_outcome new p quiet w').
  { intros w'. unfold write_text, write_outcome. proc_unfold.
    destruct (w_fs w' !! p) as [f|]; [destruct (f_writable f)|];
      by destruct quiet. }
  unfold confirm_and_write, show_diff_and_confirm.
  case_bool_decide as Heq.
  - proc_unfold. by destruct quiet.
  - unfold mbind at 1. unfold proc_bind at 1.
    destruct force.
    + replace ((when (negb quiet) (print (MsgDiff old new p));;
                mret (Some true)) w)
        with (inr (Some true) : exn + option bool, say quiet (MsgDiff old new p) w)
        by (proc_unfold; by destruct quiet).
      apply Hwrite.
    + replace ((when (negb quiet) (print (MsgDiff old new p));;
                resp ← input MsgPrompt; mret (Some (lower_is_y (strip resp)))) w)
        with (match w_stdin (say quiet (MsgDiff old new p) w) with
              | [] => (inl EOFError : exn + option bool,
                       put_stdout MsgPrompt (say quiet (MsgDiff old new p) w))
              | resp :: rest =>
                  (inr (Some (lower_is_y (strip resp))),
                   take_line rest
                     (put_stdout MsgPrompt (say quiet (MsgDiff old new p) w)))
              end)
        by (unfold input; proc_unfold; destruct quiet; cbn;
            by destruct (w_stdin w)).
      cbn zeta. destruct (w_stdin (say quiet (MsgDiff old new p) w)); [done|].
      destruct (lower_is_y (strip _)); [apply Hwrite|done].
Qed.

Lemma confirm_same old p force quiet idempotent_ok w :
  confirm_and_write old old p force quiet idempotent_ok w =
  (inl (SystemExit (noop_code idempotent_ok)),
   say quiet (MsgNoChangesNeeded p) w).
Proof. rewrite confirm_and_write_eq. by rewrite bool_decide_true. Qed.

Lemma w_fs_say quiet m w : w_fs (say quiet m w) = w_fs w.
Proof. by destruct quiet. Qed.

Lemma w_writes_say quiet m w : w_writes (say quiet m w) = w_writes w.
Proof. by destruct quiet. Qed.

Lemma w_writes_say_err quiet m w : w_writes (say_err quiet m w) = w_writes w.
Proof. by destruct quiet. Qed.

Lemma confirm_forced old new p quiet idempotent_ok w :
  old ≠ new →
  from_option f_writable true (w_fs w !! p) = true →
  confirm_and_write old new p true quiet idempotent_ok w =
  (inl (SystemExit EXIT_OK), forced_write old new p quiet w).
Proof.
  intros Hne Hw. rewrite confirm_and_write_eq, bool_decide_false by done.
  unfold write_outcome, forced_write. cbn zeta. rewrite w_fs_say.
  destruct (w_fs w !! p) as [f|]; cbn in *; by rewrite ?Hw.
Qed.

Lemma write_outcome_writes new p quiet w :
  let w' := (write_outcome new p quiet w).2 in
  w_writes w' = w_writes w ∨ w_writes w' = w_writes w ++ [(p, new)].
Proof.
  unfold write_outcome.
  destruct (w_fs w !! p) as [f|]; [destruct (f_writable f)|]; cbn;
    rewrite ?w_writes_say, ?w_writes_say_err; auto.
Qed.

Lemma confirm_writes old new p force quiet idempotent_ok w :
  let w' := (confirm_and_write old new p force quiet idempotent_ok w).2 in
  w_writes w' = w_writes w ∨ w_writes w' = w_writes w ++ [(p, new)].
Proof.
  rewrite confirm_and_write_eq. case_bool_decide.
  { cbn. rewrite w_writes_say. auto. }
  cbn zeta.
  assert (w_writes (say quiet (MsgDiff old new p) w) = w_writes w) as Hw
    by apply w_writes_say.
  destruct force.
  { rewrite <-Hw. apply write_outcome_writes. }
  destruct (w_stdin _) as [|resp rest]; [cbn; auto|].
  destruct (lower_is_y _); [|cbn; auto].
  pose proof (write_outcome_writes new p quiet
    (take_line rest (put_stdout MsgPrompt (say quiet (MsgDiff old new p) w))))
    as H'. cbn in H'. by rewrite Hw in H'.
Qed.

Lemma text_of_forced_write old new p quiet w :
  text_of (forced_write old new p quiet w) p = Some new.
Proof.
  unfold text_of, forced_write. rewrite w_fs_say. cbn.
  by rewrite lookup_insert_eq.
Qed.

Lemma run_exit (m : proc unit) w c w' :
  m w = (inl (SystemExit c), w') → run m w = (c, w').
Proof. unfold run. by intros ->. Qed.

Lemma ensure_line_eq p line force quiet idempotent_ok w old :
  ensure_text w p = Some old →
  ensure_line p line force quiet idempotent_ok w =
  if bool_decide (line ∈ splitlines old) then
    (inl (SystemExit (noop_code idempotent_ok)),
     say quiet (MsgLineAlreadyPresent p) w)
  else confirm_and_write old (join [LF] (splitlines old ++ [line]) ++ [LF])
         p force quiet idempotent_ok w.
Proof.
  unfold ensure_text, ensure_line. intros Hold. rewrite read_or_empty_eq.
  assert (∀ old',
    ((if bool_decide (line ∈ splitlines old') then
        when (negb quiet) (print (MsgLineAlreadyPresent p));;
        exit_ok_or_noop idempotent_ok
      else mret ());;
     confirm_and_write old' (join [LF] (splitlines old' ++ [line]) ++ [LF])
       p force quiet idempotent_ok) w
    = if bool_decide (line ∈ splitlines old') then
        (inl (SystemExit (noop_code idempotent_ok)),
         say quiet (MsgLineAlreadyPresent p) w)
      else confirm_and_write old'
             (join [LF] (splitlines old' ++ [line]) ++ [LF])
             p force quiet idempotent_ok w) as Hbody.
  { intros old'. case_bool_decide; proc_unfold; [by destruct quiet|done]. }
  destruct (w_fs w !! p) as [f|].
  - destruct (f_readable f); [|done]. injection Hold as <-. apply Hbody.
  - injection Hold as <-. apply Hbody.
Qed.

Lemma readable_ensure_text w p old :
  readable_text w p = Some old → ensure_text w p = Some old.
Proof.
  unfold readable_text, ensure_text. by destruct (w_fs w !! p).
Qed.

Lemma ensure_text_no_CR w p old : ensure_text w p = Some old → CR ∉ old.
Proof.
  unfold ensure_text. destruct (w_fs w !! p) as [f|].
  - destruct (f_readable f); [|done]. intros [= <-].
    apply universal_newlines_no_CR.
  - intros [= <-]. apply not_elem_of_nil.
Qed.

(** Writing one more line always changes the text. *)
Lemma appended_line_differs old line :
  join [LF] (splitlines old ++ [line]) ++ [LF] ≠ old.
Proof.
  rewrite join_LF_unlines by (by destruct (splitlines old)).
  intros Heq.
  pose proof (length_splitlines_unlines (splitlines old ++ [line])) as Hlen.
  rewrite Heq, length_app in Hlen. cbn in Hlen. lia.
Qed.

(** ** Ensure-Line *)

(** A forced Ensure-Line of a line that is not there yet. *)
Lemma ensure_line_forced w p line quiet idempotent_ok old :
  ensure_text w p = Some old →
  writable w p →
  line ∉ splitlines old →
  run (ensure_line p line true quiet idempotent_ok) w
  = (EXIT_OK,
     forced_write old (join [LF] (splitlines old ++ [line]) ++ [LF]) p quiet
       w).
Proof.
  intros Hold Hw Hnot. apply run_exit.
  rewrite (ensure_line_eq _ _ _ _ _ _ old), bool_decide_false by done.
  apply confirm_forced; [|done].
  intros Heq. by apply (appended_line_differs old line).
Qed.

(** C9: when [line] is not one of the lines of the old text (equality of
    whole lines: a line that merely contains [line] does not count),
    Ensure-Line has a change to offer, the old lines followed by [line],
    joined by newlines and ended by one newline. The candidate differs from
    the old text, so the operation goes to the confirmation gate whatever
    the flags; run with force on a writable target it writes the candidate
    and exits with 0. When [line] holds no line boundary, the new text has
    the old lines and then [line], once, as its last line. *)
Theorem ensure_line_appends w p line quiet idempotent_ok old :
  ensure_text w p = Some old →
  writable w p →
  line ∉ splitlines old →
  let new := join [LF] (splitlines old ++ [line]) ++ [LF] in
  new ≠ old ∧
  (∀ force, ensure_line p line force quiet idempotent_ok w
            = confirm_and_write old new p force quiet idempotent_ok w) ∧
  run (ensure_line p line true quiet idempotent_ok) w
  = (EXIT_OK, forced_write old new p quiet w) ∧
  text_of (forced_write old new p quiet w) p = Some new ∧
  (no_linebreak line → splitlines new = splitlines old ++ [line]).
Proof.
  intros Hold Hw Hnot new.
  assert (new ≠ old) as Hne by apply appended_line_differs.
  assert (∀ force, ensure_line p line force quiet idempotent_ok w
            = confirm_and_write old new p force quiet idempotent_ok w) as Heq.
  { intros force. rewrite (ensure_line_eq _ _ _ _ _ _ old) by done.
    by rewrite bool_decide_false. }
  repeat split; [done|done| | |].
  - by apply ensure_line_forced.
  - apply text_of_forced_write.
  - intros Hline. unfold new.
    rewrite join_LF_unlines by (by destruct (splitlines old)).
    apply splitlines_unlines, Forall_app. split.
    + apply splitlines_no_linebreak.
    + by constructor.
Qed.

Lemma ensure_line_appends_witness :
  let old := lit "alphabet" ++ [LF] in
  let new := join [LF] (splitlines old ++ [lit "alpha"]) ++ [LF] in
  new = lit "alphabet" ++ [LF] ++ lit "alpha" ++ [LF] ∧
  run (ensure_line conf (lit "alpha") true true true) (world_with old)
  = (EXIT_OK, forced_write old new conf true (world_with old)).
Proof.
  split; [reflexivity|].
  apply (ensure_line_appends (world_with (lit "alphabet" ++ [LF])) conf
           (lit "alpha") true true (lit "alphabet" ++ [LF])).
  - reflexivity.
  - reflexivity.
  - vm_compute. intros H. repeat (apply elem_of_cons in H as [H|H]; [discriminate H|]).
    by apply elem_of_nil in H.
Defined.

(** ** The top-level handler *)

Section Main.
Context {re : Regex}.

(** [SystemExit] is no [Exception]: the handler of [main] lets it through. *)
Lemma try_except_exit (m : proc unit) h w c w' :
  h (SystemExit c) = None →
  m w = (inl (SystemExit c), w') →
  try_except m h w = (inl (SystemExit c), w').
Proof. unfold try_except. intros Hh ->. by rewrite Hh. Qed.


Lemma main_replace_exit p a b f q i w code w' :
  replace_line p a b f q (negb i) w = (inl (SystemExit code), w') →
  run (main (args_replace p a b f q i)) w = (code, w').
Proof. intros H. apply run_exit. unfold main. cbn. by apply try_except_exit. Qed.



End Main.



(** ** Replace-Exact-Line *)

Lemma bool_decide_elem_of_cons (x l : str) (ls : list str) :
  bool_decide (x ∈ l :: ls) = bool_decide (l = x) || bool_decide (x ∈ ls).
Proof.
  rewrite <-bool_decide_or. apply bool_decide_ext.
  rewrite elem_of_cons. split; intros [H|H]; auto.
Qed.

Lemma replace_line_scan old_line new_line lines st :
  let st' := foldl (replace_line_step old_line new_line) st lines in
  match_found st' = match_found st || bool_decide (old_line ∈ lines) ∧
  changed st' = changed st
                || (bool_decide (old_line ∈ lines)
                    && bool_decide (old_line ≠ new_line)) ∧
  new_lines st' = new_lines st ++ map (replaced old_line new_line) lines.
Proof.
  revert st. induction lines as [|l lines IH]; intros st; cbn zeta.
  - cbn. rewrite bool_decide_false by apply not_elem_of_nil.
    by rewrite !orb_false_r, app_nil_r.
  - cbn [foldl map]. destruct (IH (replace_line_step old_line new_line st l))
      as (Hm & Hc & Hn).
    rewrite Hm, Hc, Hn, bool_decide_elem_of_cons. clear IH Hm Hc Hn.
    unfold replace_line_step, replaced.
    destruct (match_found st), (changed st);
      repeat case_bool_decide; subst; cbn; rewrite <-?app_assoc;
      try done; try tauto.
Qed.

Lemma replace_line_eq p old_line new_line force quiet idempotent_ok w old :
  readable_text w p = Some old →
  replace_line p old_line new_line force quiet idempotent_ok w =
  if bool_decide (old_line ∈ splitlines old) then
    if bool_decide (old_line ≠ new_line) then
      confirm_and_write old
        (join [LF] (map (replaced old_line new_line) (splitlines old)) ++ [LF])
        p force quiet idempotent_ok w
    else (inl (SystemExit (noop_code idempotent_ok)),
          say quiet (MsgLineMatchedAlreadyCorrect p) w)
  else (inl (SystemExit EXIT_NO_MATCH), say quiet (MsgNoExactMatch p) w).
Proof.
  unfold readable_text, replace_line. intros Hold. rewrite safe_read_bind.
  destruct (w_fs w !! p) as [f|]; [|done].
  destruct (f_readable f); [|done]. injection Hold as <-. cbn zeta.
  destruct (replace_line_scan old_line new_line
              (splitlines (universal_newlines (f_text f)))
              (Scan false false [])) as (Hm & Hc & Hn).
  rewrite Hm, Hc, Hn. cbn.
  destruct (bool_decide (old_line ∈ _)); cbn.
  - destruct (bool_decide (old_line ≠ new_line)); cbn.
    + done.
    + proc_unfold. by destruct quiet.
  - proc_unfold. by destruct quiet.
Qed.

Lemma readable_text_no_CR w p old : readable_text w p = Some old → CR ∉ old.
Proof. intros H. by apply (ensure_text_no_CR w p), readable_ensure_text. Qed.

(** Rewriting the lines of a text read with universal newlines, with at
    least one line changed, never gives the text back. *)
Lemma rewritten_lines_differ old (g : str → str) l :
  CR ∉ old → l ∈ splitlines old → g l ≠ l →
  join [LF] (map g (splitlines old)) ++ [LF] ≠ old.
Proof.
  intros Hcr Hl Hg Heq.
  rewrite join_LF_unlines in Heq.
  2:{ destruct (splitlines old); [by apply elem_of_nil in Hl|done]. }
  apply unlines_eq_splitlines in Heq; [|done|by rewrite length_map].
  apply Hg. apply list_elem_of_lookup in Hl as [i Hi].
  apply (f_equal (λ ls, ls !! i)) in Heq.
  rewrite list_lookup_fmap, Hi in Heq. cbn in Heq. congruence.
Qed.

(** The candidate of Replace-Exact-Line differs from the text read. *)
Lemma replaced_lines_differ w p old_line new_line old :
  readable_text w p = Some old →
  old_line ≠ new_line →
  old_line ∈ splitlines old →
  join [LF] (map (replaced old_line new_line) (splitlines old)) ++ [LF] ≠ old.
Proof.
  intros Hold Hne Hin.
  apply (rewritten_lines_differ old (replaced old_line new_line) old_line).
  - by eapply readable_text_no_CR.
  - done.
  - unfold replaced. rewrite bool_decide_true by done. congruence.
Qed.

(** A forced Replace-Exact-Line that has a line to change. *)
Lemma replace_line_forced w p old_line new_line quiet idempotent_ok old :
  readable_text w p = Some old →
  writable w p →
  old_line ≠ new_line →
  old_line ∈ splitlines old →
  run (replace_line p old_line new_line true quiet idempotent_ok) w
  = (EXIT_OK,
     forced_write old
       (join [LF] (map (replaced old_line new_line) (splitlines old)) ++ [LF])
       p quiet w).
Proof.
  intros Hold Hw Hne Hin. apply run_exit.
  rewrite (replace_line_eq _ _ _ _ _ _ _ old), !bool_decide_true by done.
  apply confirm_forced; [|done].
  intros Heq. by apply (replaced_lines_differ w p old_line new_line old).
Qed.

(** C6: when [old_line] differs from [new_line] and is one of the lines,
    every line equal to [old_line] becomes [new_line] and every other line
    stays; the lines are joined by newlines and ended by one newline. The
    candidate differs from the old text, so the change goes to the
    confirmation gate (the situation is Changed); with force on a writable
    file it is written and the status is 0. *)
Theorem replace_line_changes w p old_line new_line quiet idempotent_ok old :
  readable_text w p = Some old →
  writable w p →
  old_line ≠ new_line →
  old_line ∈ splitlines old →
  let new_lines := map (λ l, if bool_decide (l = old_line) then new_line else l)
                       (splitlines old) in
  let new := join [LF] new_lines ++ [LF] in
  new ≠ old ∧
  (∀ force, replace_line p old_line new_line force quiet idempotent_ok w
            = confirm_and_write old new p force quiet idempotent_ok w) ∧
  run (replace_line p old_line new_line true quiet idempotent_ok) w
  = (EXIT_OK, forced_write old new p quiet w) ∧
  text_of (forced_write old new p quiet w) p = Some new.
Proof.
  intros Hold Hw Hne Hin new_lines new.
  assert (new ≠ old) as Hdiff
    by by apply (replaced_lines_differ w p old_line new_line old).
  assert (∀ force, replace_line p old_line new_line force quiet idempotent_ok w
            = confirm_and_write old new p force quiet idempotent_ok w) as Heq.
  { intros force. rewrite (replace_line_eq _ _ _ _ _ _ _ old) by done.
    by rewrite !bool_decide_true. }
  repeat split; [done|done| |].
  - by apply replace_line_forced.
  - apply text_of_forced_write.
Qed.

Lemma replace_line_changes_witness :
  let old := unlines [lit "x=1"; lit "y=2"; lit "x=1"] in
  let new := unlines [lit "x=9"; lit "y=2"; lit "x=9"] in
  run (replace_line conf (lit "x=1") (lit "x=9") true true false)
      (world_with old)
  = (EXIT_OK, forced_write old new conf true (world_with old)).
Proof.
  apply (replace_line_changes
           (world_with (unlines [lit "x=1"; lit "y=2"; lit "x=1"])) conf
           (lit "x=1") (lit "x=9") true false
           (unlines [lit "x=1"; lit "y=2"; lit "x=1"])).
  - reflexivity.
  - reflexivity.
  - discriminate.
  - vm_compute. left.
Defined.

(** C8: when no line of an existing, readable file equals [old_line],
    Replace-Exact-Line exits with 3; nothing is written, the file system is
    as before. *)
Theorem replace_line_no_match w p old_line new_line force quiet idempotent_ok
    old :
  readable_text w p = Some old →
  old_line ∉ splitlines old →
  let r := run (replace_line p old_line new_line force quiet idempotent_ok) w in
  r = (EXIT_NO_MATCH, say quiet (MsgNoExactMatch p) w) ∧
  w_fs r.2 = w_fs w ∧ writes_since w r.2 = [].
Proof.
  intros Hold Hnot r.
  assert (r = (EXIT_NO_MATCH, say quiet (MsgNoExactMatch p) w)) as ->.
  { apply run_exit. rewrite (replace_line_eq _ _ _ _ _ _ _ old) by done.
    by rewrite bool_decide_false. }
  unfold writes_since. cbn. rewrite w_fs_say, w_writes_say.
  by rewrite drop_all.
Qed.

Lemma replace_line_no_match_witness :
  let w := world_with (lit "something else" ++ [LF]) in
  run (replace_line conf (lit "doesnot=exist") (lit "new=val") false true true)
      w
  = (3%Z, w).
Proof.
  apply (replace_line_no_match (world_with (lit "something else" ++ [LF]))
           conf (lit "doesnot=exist") (lit "new=val") false true true
           (lit "something else" ++ [LF])).
  - reflexivity.
  - vm_compute. intros H.
    repeat (apply elem_of_cons in H as [H|H]; [discriminate H|]).
    by apply elem_of_nil in H.
Defined.

(** ** Replace-Pattern *)

Section ReplacePattern.
Context {re : Regex}.

Lemma replace_line_re_scan pattern replacement lines st :
  let st' := foldl (replace_line_re_step pattern replacement) st lines in
  match_found st' = match_found st || existsb (re_search pattern) lines ∧
  changed st' = changed st || existsb (changed_by pattern replacement) lines ∧
  new_lines st' = new_lines st ++ map (re_sub pattern replacement) lines.
Proof.
  revert st. induction lines as [|l lines IH]; intros st; cbn zeta.
  - cbn. by rewrite !orb_false_r, app_nil_r.
  - cbn [foldl map existsb].
    destruct (IH (replace_line_re_step pattern replacement st l))
      as (Hm & Hc & Hn).
    rewrite Hm, Hc, Hn. clear IH Hm Hc Hn.
    unfold replace_line_re_step, changed_by. cbn.
    rewrite <-app_assoc.
    destruct (match_found st), (changed st), (re_search pattern l),
      (bool_decide (re_sub pattern replacement l ≠ l)); done.
Qed.

Lemma replace_line_re_eq p pattern replacement force quiet idempotent_ok w
    old :
  readable_text w p = Some old →
  replace_line_re p pattern replacement force quiet idempotent_ok w =
  if existsb (re_search pattern) (splitlines old) then
    if existsb (changed_by pattern replacement) (splitlines old) then
      confirm_and_write old
        (join [LF] (map (re_sub pattern replacement) (splitlines old)) ++ [LF])
        p force quiet idempotent_ok w
    else (inl (SystemExit (noop_code idempotent_ok)),
          say quiet (MsgRegexNoChanges p) w)
  else (inl (SystemExit EXIT_NO_MATCH), say quiet (MsgNoRegexMatches p) w).
Proof.
  unfold readable_text, replace_line_re. intros Hold. rewrite safe_read_bind.
  destruct (w_fs w !! p) as [f|]; [|done].
  destruct (f_readable f); [|done]. injection Hold as <-. cbn zeta.
  destruct (replace_line_re_scan pattern replacement
              (splitlines (universal_newlines (f_text f)))
              (Scan false false [])) as (Hm & Hc & Hn).
  rewrite Hm, Hc, Hn. cbn.
  destruct (existsb (re_search pattern) _); cbn.
  - destruct (existsb (changed_by pattern replacement) _); cbn.
    + done.
    + proc_unfold. by destruct quiet.
  - proc_unfold. by destruct quiet.
Qed.


Lemma existsb_true {A} (f : A → bool) (l : list A) x :
  x ∈ l → f x = true → existsb f l = true.
Proof.
  intros Hx Hf. apply existsb_exists. exists x. by rewrite <-list_elem_of_In.
Qed.


End ReplacePattern.


(** ** Ensure-Block *)

Lemma block_target_eq old block_lines marker_start marker_end w :
  block_target old block_lines marker_start marker_end w
  = (inr (block_candidate old block_lines marker_start marker_end), w).
Proof.
  unfold block_target, block_candidate, canonical_block, contains, index.
  destruct (find marker_start old) as [i|];
    [destruct (find marker_end old) as [j|]|]; cbn;
    try done; by destruct (rstrip old).
Qed.

Lemma ensure_block_eq p block_lines marker_start marker_end force quiet
    idempotent_ok w old :
  ensure_text w p = Some old →
  let new := block_candidate old block_lines marker_start marker_end in
  ensure_block p block_lines marker_start marker_end force quiet
    idempotent_ok w =
  if bool_decide (old = new) then
    (inl (SystemExit (noop_code idempotent_ok)),
     say quiet (MsgBlockAlreadyCorrect p) w)
  else confirm_and_write old new p force quiet idempotent_ok w.
Proof.
  intros Hold new. unfold ensure_text in Hold. unfold ensure_block.
  rewrite read_or_empty_eq.
  assert (∀ old',
    (new ← block_target old' block_lines marker_start marker_end;
     (if bool_decide (old' = new) then
        when (negb quiet) (print (MsgBlockAlreadyCorrect p));;
        exit_ok_or_noop idempotent_ok
      else mret ());;
     confirm_and_write old' new p force quiet idempotent_ok) w
    = let new := block_candidate old' block_lines marker_start marker_end in
      if bool_decide (old' = new) then
        (inl (SystemExit (noop_code idempotent_ok)),
         say quiet (MsgBlockAlreadyCorrect p) w)
      else confirm_and_write old' new p force quiet idempotent_ok w) as Hbody.
  { intros old'. unfold mbind at 1. unfold proc_bind at 1.
    rewrite block_target_eq. cbn zeta.
    case_bool_decide; proc_unfold; [by destruct quiet|done]. }
  destruct (w_fs w !! p) as [f|].
  - destruct (f_readable f); [|done]. injection Hold as <-. apply Hbody.
  - injection Hold as <-. apply Hbody.
Qed.



(** C3 fails on a file that starts empty: the first forced run writes the
    canonical block and a newline; the second run with the same parameters
    finds both markers, computes that text with a newline in front, which is
    not the text it read, and writes again. *)
Theorem ensure_block_second_run_changes :
  let go := run (ensure_block conf [lit "one"; lit "two"] (lit "# ST")
                   (lit "# EN") true true true) in
  let first := unlines [lit "# ST"; lit "one"; lit "two"; lit "# EN"] in
  let r1 := go (world_with []) in
  let r2 := go r1.2 in
  r1.1 = 0%Z ∧ text_of r1.2 conf = Some first ∧
  block_candidate first [lit "one"; lit "two"] (lit "# ST") (lit "# EN")
  = LF :: first ∧
  r2.1 = 0%Z ∧ text_of r2.2 conf = Some (LF :: first) ∧
  w_writes r2.2 = [(conf, first); (conf, LF :: first)].
Proof. cbv zeta. split_and!; vm_compute; reflexivity. Qed.

(** ** The file is absent or may not be read *)

Section ReadFailures.
Context {re : Regex}.

Lemma ensure_line_unreadable p line force quiet idempotent_ok w f :
  w_fs w !! p = Some f → f_readable f = false →
  ensure_line p line force quiet idempotent_ok w
  = (inl (SystemExit EXIT_PERMISSIONS),
     say_err quiet (MsgPermissionDenied p) w).
Proof.
  intros Hf Hr. unfold ensure_line. rewrite read_or_empty_eq.
  by rewrite Hf, Hr.
Qed.

Lemma ensure_block_unreadable p block_lines marker_start marker_end force
    quiet idempotent_ok w f :
  w_fs w !! p = Some f → f_readable f = false →
  ensure_block p block_lines marker_start marker_end force quiet
    idempotent_ok w
  = (inl (SystemExit EXIT_PERMISSIONS),
     say_err quiet (MsgPermissionDenied p) w).
Proof.
  intros Hf Hr. unfold ensure_block. rewrite read_or_empty_eq.
  by rewrite Hf, Hr.
Qed.

Lemma replace_line_read_failure p old_line new_line force quiet idempotent_ok
    w :
  readable_text w p = None →
  replace_line p old_line new_line force quiet idempotent_ok w
  = match w_fs w !! p with
    | None => (inl (SystemExit EXIT_NOT_FOUND),
               say_err quiet (MsgFileNotFound p) w)
    | Some _ => (inl (SystemExit EXIT_PERMISSIONS),
                 say_err quiet (MsgPermissionDenied p) w)
    end.
Proof.
  unfold readable_text, replace_line. rewrite safe_read_bind.
  destruct (w_fs w !! p) as [f|]; [|done]. by destruct (f_readable f).
Qed.

Lemma replace_line_re_read_failure p pattern replacement force quiet
    idempotent_ok w :
  readable_text w p = None →
  replace_line_re p pattern replacement force quiet idempotent_ok w
  = match w_fs w !! p with
    | None => (inl (SystemExit EXIT_NOT_FOUND),
               say_err quiet (MsgFileNotFound p) w)
    | Some _ => (inl (SystemExit EXIT_PERMISSIONS),
                 say_err quiet (MsgPermissionDenied p) w)
    end.
Proof.
  unfold readable_text, replace_line_re. rewrite safe_read_bind.
  destruct (w_fs w !! p) as [f|]; [|done]. by destruct (f_readable f).
Qed.


End ReadFailures.



(** ** What the operations write *)

Lemma run_world (m : proc unit) w : (run m w).2 = (m w).2.
Proof.
  unfold run. destruct (m w) as [[e|[]] w']; [by destruct e|done].
Qed.

Lemma writes_since_same w w' :
  w_writes w' = w_writes w → writes_since w w' = [].
Proof. unfold writes_since. intros ->. by rewrite drop_all. Qed.

Lemma writes_since_app w w' x :
  w_writes w' = w_writes w ++ [x] → writes_since w w' = [x].
Proof. unfold writes_since. intros ->. by rewrite drop_app_length. Qed.

(** The shared tail writes at most once, and then the new text, which is
    not the old one. *)
Lemma confirm_writes_since old new p force quiet idempotent_ok w ps :
  ps ∈ writes_since w
         (confirm_and_write old new p force quiet idempotent_ok w).2 →
  ps = (p, new) ∧ old ≠ new.
Proof.
  intros Hps. destruct (decide (old = new)) as [->|Hne].
  - rewrite confirm_same, writes_since_same in Hps.
    + by apply elem_of_nil in Hps.
    + apply w_writes_say.
  - split; [|done].
    destruct (confirm_writes old new p force quiet idempotent_ok w) as [H|H].
    + rewrite writes_since_same in Hps by done. by apply elem_of_nil in Hps.
    + rewrite (writes_since_app _ _ _ H) in Hps.
      by apply list_elem_of_singleton in Hps.
Qed.

Lemma no_writes_say w quiet m ps : ps ∉ writes_since w (say quiet m w).
Proof.
  rewrite writes_since_same by apply w_writes_say. apply not_elem_of_nil.
Qed.

Lemma no_writes_say_err w quiet m ps : ps ∉ writes_since w (say_err quiet m w).
Proof.
  rewrite writes_since_same by apply w_writes_say_err. apply not_elem_of_nil.
Qed.

Lemma ensure_text_None w p :
  ensure_text w p = None →
  ∃ f, w_fs w !! p = Some f ∧ f_readable f = false.
Proof.
  unfold ensure_text. destruct (w_fs w !! p) as [f|]; [|done].
  destruct (f_readable f) eqn:Hr; [done|]. eauto.
Qed.

Lemma ensure_line_writes p line force quiet idempotent_ok w ps :
  ps ∈ writes_since w (ensure_line p line force quiet idempotent_ok w).2 →
  ∃ old, ensure_text w p = Some old ∧
         ps = (p, join [LF] (splitlines old ++ [line]) ++ [LF]).
Proof.
  destruct (ensure_text w p) as [old|] eqn:Hold.
  - rewrite (ensure_line_eq _ _ _ _ _ _ old) by done. case_bool_decide.
    + intros H'. by apply no_writes_say in H'.
    + intros [-> _]%confirm_writes_since. eauto.
  - apply ensure_text_None in Hold as (f & Hf & Hr).
    rewrite (ensure_line_unreadable _ _ _ _ _ _ f) by done.
    intros H'. by apply no_writes_say_err in H'.
Qed.

Lemma ensure_block_writes p block_lines marker_start marker_end force quiet
    idempotent_ok w ps :
  ps ∈ writes_since w
         (ensure_block p block_lines marker_start marker_end force quiet
            idempotent_ok w).2 →
  ∃ old, ensure_text w p = Some old ∧
         ps = (p, block_candidate old block_lines marker_start marker_end).
Proof.
  destruct (ensure_text w p) as [old|] eqn:Hold.
  - rewrite (ensure_block_eq _ _ _ _ _ _ _ _ old) by done. cbn zeta.
    case_bool_decide.
    + intros H'. by apply no_writes_say in H'.
    + intros [-> _]%confirm_writes_since. eauto.
  - apply ensure_text_None in Hold as (f & Hf & Hr).
    rewrite (ensure_block_unreadable _ _ _ _ _ _ _ _ f) by done.
    intros H'. by apply no_writes_say_err in H'.
Qed.

Lemma replace_line_writes p old_line new_line force quiet idempotent_ok w ps :
  ps ∈ writes_since w
         (replace_line p old_line new_line force quiet idempotent_ok w).2 →
  ∃ old, readable_text w p = Some old ∧
         ps = (p, join [LF] (map (replaced old_line new_line)
                               (splitlines old)) ++ [LF]).
Proof.
  destruct (readable_text w p) as [old|] eqn:Hold.
  - rewrite (replace_line_eq _ _ _ _ _ _ _ old) by done.
    repeat case_bool_decide.
    + intros [-> _]%confirm_writes_since. eauto.
    + intros H'. by apply no_writes_say in H'.
    + intros H'. by apply no_writes_say in H'.
  - rewrite replace_line_read_failure by done.
    destruct (w_fs w !! p); intros H'; by apply no_writes_say_err in H'.
Qed.

Lemma replace_line_re_writes {re : Regex} p pattern replacement force quiet
    idempotent_ok w ps :
  ps ∈ writes_since w
         (replace_line_re p pattern replacement force quiet idempotent_ok
            w).2 →
  ∃ old, readable_text w p = Some old ∧
         ps = (p, join [LF] (map (re_sub pattern replacement)
                               (splitlines old)) ++ [LF]).
Proof.
  destruct (readable_text w p) as [old|] eqn:Hold.
  - rewrite (replace_line_re_eq _ _ _ _ _ _ _ old) by done.
    destruct (existsb (re_search pattern) _);
      [destruct (existsb (changed_by pattern replacement) _)|].
    + intros [-> _]%confirm_writes_since. eauto.
    + intros H'. by apply no_writes_say in H'.
    + intros H'. by apply no_writes_say in H'.
  - rewrite replace_line_re_read_failure by done.
    destruct (w_fs w !! p); intros H'; by apply no_writes_say_err in H'.
Qed.

Lemma join_last sep ls l : last ls = Some l → ∃ x, join sep ls = x ++ l.
Proof.
  induction ls as [|a ls IH]; [done|].
  destruct ls as [|b ls].
  - intros [= ->]. by exists [].
  - intros H. destruct (IH H) as [x Hx].
    exists (a ++ sep ++ x).
    change (join sep (a :: b :: ls)) with (a ++ sep ++ join sep (b :: ls)).
    by rewrite Hx, <-!app_assoc.
Qed.

Lemma ends_with_newline_snoc s : ends_with_newline (s ++ [LF]).
Proof. unfold ends_with_newline. by rewrite last_snoc. Qed.

Lemma one_trailing_newline_intro x l :
  l ≠ [] → last l ≠ Some LF → one_trailing_newline (x ++ l ++ [LF]).
Proof.
  intros Hl Hlast. exists (x ++ l). split; [by rewrite <-app_assoc|].
  destruct l as [|c l _] using rev_ind; [done|].
  rewrite app_assoc, last_snoc. by rewrite last_snoc in Hlast.
Qed.

(** Lines joined by newlines and ended by one newline. *)
Lemma joined_lines_ending ls :
  let s := join [LF] ls ++ [LF] in
  ends_with_newline s ∧
  ∀ l, last ls = Some l → l ≠ [] → last l ≠ Some LF → one_trailing_newline s.
Proof.
  intros s. split; [apply ends_with_newline_snoc|].
  intros l [x Hx]%(join_last [LF]) Hl Hlast. unfold s.
  rewrite Hx, <-app_assoc. by apply one_trailing_newline_intro.
Qed.

Lemma canonical_block_end block_lines marker_start marker_end :
  ∃ x, canonical_block block_lines marker_start marker_end = x ++ marker_end.
Proof.
  apply join_last. by rewrite app_assoc, last_snoc.
Qed.

Lemma contains_false sub s :
  contains sub s = false → find sub s = None.
Proof. unfold contains. by destruct (find sub s). Qed.

Lemma block_candidate_appended old block_lines marker_start marker_end :
  contains marker_start old && contains marker_end old = false →
  ∃ x, block_candidate old block_lines marker_start marker_end
       = x ++ marker_end ++ [LF].
Proof.
  intros Hc. unfold block_candidate.
  destruct (canonical_block_end block_lines marker_start marker_end)
    as [x ->].
  assert (∃ y, match rstrip old with
               | [] => (x ++ marker_end) ++ [LF]
               | prefix => prefix ++ [LF] ++ (x ++ marker_end) ++ [LF]
               end = y ++ marker_end ++ [LF]) as Hy.
  { destruct (rstrip old) as [|c r].
    - exists x. by rewrite <-app_assoc.
    - exists ((c :: r) ++ [LF] ++ x). by rewrite <-!app_assoc. }
  apply andb_false_iff in Hc as [Hc|Hc]; apply contains_false in Hc;
    rewrite Hc; [done|by destruct (find marker_start old)].
Qed.

Section Writes.
Context {re : Regex}.

(** C2, as the program has it. A text written by Ensure-Line,
    Replace-Exact-Line or Replace-Pattern is the resulting lines joined by
    newlines and ended by one newline: it ends with a newline, and with
    exactly one when the last resulting line is not empty and does not end
    with a newline. A text written by Ensure-Block ends with the end marker
    and one newline when a marker is missing from the old text or only
    white space follows the first end marker; otherwise it ends with the
    text that followed the end marker, and so as the old text ends. *)
Theorem written_text_endings w p force quiet idempotent_ok q s :
  (∀ line,
     (q, s) ∈ writes_since w
                (run (ensure_line p line force quiet idempotent_ok) w).2 →
     ∃ old, ensure_text w p = Some old ∧
       let ls := splitlines old ++ [line] in
       s = join [LF] ls ++ [LF] ∧ ends_with_newline s ∧
       (line ≠ [] → last line ≠ Some LF → one_trailing_newline s)) ∧
  (∀ old_line new_line,
     (q, s) ∈ writes_since w
                (run (replace_line p old_line new_line force quiet
                        idempotent_ok) w).2 →
     ∃ old, readable_text w p = Some old ∧
       let ls := map (replaced old_line new_line) (splitlines old) in
       s = join [LF] ls ++ [LF] ∧ ends_with_newline s ∧
       (∀ l, last ls = Some l → l ≠ [] → last l ≠ Some LF →
             one_trailing_newline s)) ∧
  (∀ pattern replacement,
     (q, s) ∈ writes_since w
                (run (replace_line_re p pattern replacement force quiet
                        idempotent_ok) w).2 →
     ∃ old, readable_text w p = Some old ∧
       let ls := map (re_sub pattern replacement) (splitlines old) in
       s = join [LF] ls ++ [LF] ∧ ends_with_newline s ∧
       (∀ l, last ls = Some l → l ≠ [] → last l ≠ Some LF →
             one_trailing_newline s)) ∧
  (∀ block_lines marker_start marker_end,
     (q, s) ∈ writes_since w
                (run (ensure_block p block_lines marker_start marker_end
                        force quiet idempotent_ok) w).2 →
     ∃ old, ensure_text w p = Some old ∧
       s = block_candidate old block_lines marker_start marker_end ∧
       (contains marker_start old && contains marker_end old = false →
        ∃ x, s = x ++ marker_end ++ [LF]) ∧
       (∀ i j, find marker_start old = Some i →
               find marker_end old = Some j →
               let after := lstrip (drop (j + length marker_end) old) in
               (after = [] → ∃ x, s = x ++ marker_end ++ [LF]) ∧
               (after ≠ [] → (∃ x, s = x ++ after) ∧ last s = last old)) ∧
       ((∃ x, s = x ++ marker_end ++ [LF]) →
        marker_end ≠ [] → last marker_end ≠ Some LF →
        one_trailing_newline s)).
Proof.
  split_and!.
  - intros line. rewrite run_world.
    intros (old & Hold & [= -> ->])%ensure_line_writes.
    exists old. split; [done|]. cbn zeta.
    destruct (joined_lines_ending (splitlines old ++ [line])) as [He Hone].
    split_and!; [done|done|]. intros Hl Hlast.
    apply (Hone line); [by rewrite last_snoc|done|done].
  - intros old_line new_line. rewrite run_world.
    intros (old & Hold & [= -> ->])%replace_line_writes.
    exists old. split; [done|]. cbn zeta.
    destruct (joined_lines_ending
                (map (replaced old_line new_line) (splitlines old)))
      as [He Hone].
    by split_and!.
  - intros pattern replacement. rewrite run_world.
    intros (old & Hold & [= -> ->])%replace_line_re_writes.
    exists old. split; [done|]. cbn zeta.
    destruct (joined_lines_ending
                (map (re_sub pattern replacement) (splitlines old)))
      as [He Hone].
    by split_and!.
  - intros block_lines marker_start marker_end. rewrite run_world.
    intros (old & Hold & [= -> ->])%ensure_block_writes.
    exists old. split_and!; [done|done|..].
    + apply block_candidate_appended.
    + intros i j Hi Hj after. unfold block_candidate. rewrite Hi, Hj.
      fold after.
      destruct (canonical_block_end block_lines marker_start marker_end)
        as [x ->].
      split.
      * intros ->. exists (rstrip (take i old) ++ [LF] ++ x).
        by rewrite app_nil_r, <-!app_assoc.
      * intros Hne. split.
        -- exists (rstrip (take i old) ++ [LF] ++ (x ++ marker_end) ++ [LF]).
           by rewrite <-!app_assoc.
        -- destruct (lstrip_spec (drop (j + length marker_end) old))
             as (ws & Hsplit & _).
           fold after in Hsplit.
           rewrite <-(take_drop (j + length marker_end) old) at 2.
           rewrite Hsplit, !last_app.
           destruct (last after) eqn:Hl; [done|].
           apply last_None in Hl. done.
    + intros [x ->] Hne Hlast. by apply one_trailing_newline_intro.
Qed.

End Writes.

Lemma not_one_trailing_newline t :
  ¬ one_trailing_newline (t ++ [LF; LF]).
Proof.
  intros (u & Hu & Hlast). apply Hlast.
  change (t ++ [LF; LF]) with (t ++ [LF] ++ [LF]) in Hu.
  rewrite app_assoc in Hu. apply app_inj_tail in Hu as [<- _].
  by rewrite last_snoc.
Qed.

Lemma written_text_endings_witness :
  let old := lit "a" ++ [LF; LF] in
  let s := lit "b" ++ [LF; LF] in
  let r := run (replace_line conf (lit "a") (lit "b") true true true)
               (world_with old) in
  (conf, s) ∈ writes_since (world_with old) r.2 ∧
  s = join [LF] (map (replaced (lit "a") (lit "b")) (splitlines old))
      ++ [LF] ∧
  ends_with_newline s.
Proof.
  intros old s r.
  assert ((conf, s) ∈ writes_since (world_with old) r.2) as Hqs.
  { vm_compute. left. }
  split; [exact Hqs|].
  destruct (@written_text_endings literal_regex (world_with old) conf true
              true true conf s) as (_ & Hrepl & _).
  destruct (Hrepl (lit "a") (lit "b") Hqs) as (old' & Hold & Hs & He & _).
  injection Hold as <-. by split.
Defined.

(** C2 as the specification words it fails: replacing a line of a file
    that ends with a blank line writes a text that ends with two newlines,
    and replacing a block that is followed by text without final newline
    writes a text that ends with no newline. *)
Lemma written_text_endings_counterexample :
  let r1 := run (replace_line conf (lit "a") (lit "b") true true true)
                (world_with (lit "a" ++ [LF; LF])) in
  let r2 := run (ensure_block conf [lit "A"] (lit "# BEGIN") (lit "# END")
                   true true true)
                (world_with (unlines [lit "x"; lit "# BEGIN"; lit "# END"]
                             ++ lit "tail")) in
  (w_writes r1.2 = [(conf, lit "b" ++ [LF; LF])] ∧
   ¬ one_trailing_newline (lit "b" ++ [LF; LF])) ∧
  (w_writes r2.2
   = [(conf, unlines [lit "x"; lit "# BEGIN"; lit "A"; lit "# END"]
             ++ lit "tail")] ∧
   ¬ ends_with_newline
       (unlines [lit "x"; lit "# BEGIN"; lit "A"; lit "# END"]
        ++ lit "tail")).
Proof.
  cbv zeta. split_and!.
  - vm_compute. reflexivity.
  - apply not_one_trailing_newline.
  - vm_compute. reflexivity.
  - vm_compute. discriminate.
Qed.

(** ** Line terminators *)

Section Terminators.
Context {re : Regex}.

Lemma readable_text_lookup w p f :
  w_fs w !! p = Some f → f_readable f = true →
  readable_text w p = Some (universal_newlines (f_text f)).
Proof. intros Hf Hr. unfold readable_text. by rewrite Hf, Hr. Qed.

Lemma writable_lookup w p f :
  w_fs w !! p = Some f → f_writable f = true → writable w p.
Proof. intros Hf Hw. unfold writable. by rewrite Hf. Qed.

(** C10: take the lines of the stored text as [str.splitlines] cuts them,
    whatever separates them (\r\n, \r, \n, \v, \f, \x1c, \x1d, \x1e, \x85),
    none of which is left inside a line. Whenever one of the three
    line-splitting operations has a change to write and is run with force,
    the text it writes is its resulting lines joined by \n and ended by \n:
    every line of the file, also the lines the operation leaves as they
    are, now ends with \n. *)
Theorem line_terminators_normalized w p f quiet idempotent_ok :
  w_fs w !! p = Some f →
  f_readable f = true →
  f_writable f = true →
  let lines := splitlines (f_text f) in
  Forall no_linebreak lines ∧
  (∀ line, line ∉ lines →
     ∃ w', run (ensure_line p line true quiet idempotent_ok) w = (EXIT_OK, w')
           ∧ text_of w' p = Some (join [LF] (lines ++ [line]) ++ [LF])) ∧
  (∀ old_line new_line, old_line ∈ lines → old_line ≠ new_line →
     ∃ w', run (replace_line p old_line new_line true quiet idempotent_ok) w
           = (EXIT_OK, w')
           ∧ text_of w' p
             = Some (join [LF] (map (replaced old_line new_line) lines)
                     ++ [LF])) ∧
  (∀ pattern replacement,
     (∃ l, l ∈ lines ∧ re_search pattern l = true) →
     (∃ l, l ∈ lines ∧ re_sub pattern replacement l ≠ l) →
     ∃ w', run (replace_line_re p pattern replacement true quiet
                  idempotent_ok) w = (EXIT_OK, w')
           ∧ text_of w' p
             = Some (join [LF] (map (re_sub pattern replacement) lines)
                     ++ [LF])).
Proof.
  intros Hf Hr Hw lines.
  pose proof (readable_text_lookup w p f Hf Hr) as Hold.
  pose proof (writable_lookup w p f Hf Hw) as Hwr.
  pose proof (splitlines_universal_newlines (f_text f)) as Hlines.
  fold lines in Hlines.
  set (old := universal_newlines (f_text f)) in *.
  split_and!.
  - apply splitlines_no_linebreak.
  - intros line Hline. rewrite <-Hlines in Hline |- *.
    eexists. split; [|apply text_of_forced_write].
    apply ensure_line_forced; [by apply readable_ensure_text|done..].
  - intros old_line new_line Hin Hne. rewrite <-Hlines in Hin |- *.
    eexists. split; [|apply text_of_forced_write].
    by apply replace_line_forced.
  - intros pattern replacement (l & Hl & Hmatch) (l' & Hl' & Hchg).
    rewrite <-Hlines in Hl, Hl' |- *.
    eexists. split; [|apply text_of_forced_write].
    apply run_exit.
    rewrite (replace_line_re_eq _ _ _ _ _ _ _ old) by done.
    rewrite (existsb_true _ _ l) by done.
    rewrite (existsb_true _ _ l')
      by (done || unfold changed_by; by rewrite bool_decide_true).
    apply confirm_forced; [|done].
    intros Heq. symmetry in Heq. revert Heq.
    apply (rewritten_lines_differ old (re_sub pattern replacement) l');
      [|done..].
    by eapply readable_text_no_CR.
Qed.

End Terminators.

Lemma line_terminators_normalized_witness :
  let stored := lit "a" ++ [CR; LF] ++ lit "b" ++ [CR] ++ lit "c" ++ [11]
                ++ lit "d" in
  let w := world_with stored in
  splitlines stored = [lit "a"; lit "b"; lit "c"; lit "d"] ∧
  ∃ w', run (replace_line conf (lit "b") (lit "B") true true true) w
        = (0%Z, w')
        ∧ text_of w' conf
          = Some (unlines [lit "a"; lit "B"; lit "c"; lit "d"]).
Proof.
  intros stored w. split; [reflexivity|].
  destruct (@line_terminators_normalized literal_regex w conf
              (File stored true true) true true)
    as (_ & _ & Hrepl & _); [reflexivity..|].
  destruct (Hrepl (lit "b") (lit "B")) as (w' & Hrun & Htext).
  - vm_compute. right. left.
  - discriminate.
  - exists w'. split; [exact Hrun|]. rewrite Htext. reflexivity.
Defined.

(** ** The shape of the four operations *)

Lemma ensure_line_shape p line quiet idempotent_ok w :
  op_shape p quiet idempotent_ok
    (λ force, ensure_line p line force quiet idempotent_ok) w.
Proof.
  destruct (ensure_text w p) as [old|] eqn:Hold.
  - destruct (decide (line ∈ splitlines old)) as [Hin|Hnot].
    + left. exists (noop_code idempotent_ok), (MsgLineAlreadyPresent p).
      split; [by left|]. intros force.
      by rewrite (ensure_line_eq _ _ _ _ _ _ old), bool_decide_true.
    + right; right.
      exists old, (join [LF] (splitlines old ++ [line]) ++ [LF]). split.
      * intros Heq. by apply (appended_line_differs old line).
      * intros force.
        by rewrite (ensure_line_eq _ _ _ _ _ _ old), bool_decide_false.
  - apply ensure_text_None in Hold as (f & Hf & Hr).
    right; left. exists EXIT_PERMISSIONS, (MsgPermissionDenied p).
    split; [by left|]. intros force. by eapply ensure_line_unreadable.
Qed.

Lemma ensure_block_shape p block_lines marker_start marker_end quiet
    idempotent_ok w :
  op_shape p quiet idempotent_ok
    (λ force, ensure_block p block_lines marker_start marker_end force quiet
                idempotent_ok) w.
Proof.
  destruct (ensure_text w p) as [old|] eqn:Hold.
  - pose proof (ensure_block_eq p block_lines marker_start marker_end) as Heq.
    set (new := block_candidate old block_lines marker_start marker_end).
    destruct (decide (old = new)) as [Hsame|Hdiff].
    + left. exists (noop_code idempotent_ok), (MsgBlockAlreadyCorrect p).
      split; [by left|]. intros force.
      rewrite (Heq force quiet idempotent_ok w old Hold). cbn zeta.
      fold new. by rewrite bool_decide_true.
    + right; right. exists old, new. split; [done|]. intros force.
      rewrite (Heq force quiet idempotent_ok w old Hold). cbn zeta.
      fold new. by rewrite bool_decide_false.
  - apply ensure_text_None in Hold as (f & Hf & Hr).
    right; left. exists EXIT_PERMISSIONS, (MsgPermissionDenied p).
    split; [by left|]. intros force. by eapply ensure_block_unreadable.
Qed.

Lemma read_failure_shape p quiet idempotent_ok (f : bool → proc unit) w :
  (∀ force, f force w
            = match w_fs w !! p with
              | None => (inl (SystemExit EXIT_NOT_FOUND),
                         say_err quiet (MsgFileNotFound p) w)
              | Some _ => (inl (SystemExit EXIT_PERMISSIONS),
                           say_err quiet (MsgPermissionDenied p) w)
              end) →
  op_shape p quiet idempotent_ok f w.
Proof.
  intros Hf. right; left. destruct (w_fs w !! p).
  - exists EXIT_PERMISSIONS, (MsgPermissionDenied p). split; [by left|done].
  - exists EXIT_NOT_FOUND, (MsgFileNotFound p). split; [by right|done].
Qed.

Lemma replace_line_shape p old_line new_line quiet idempotent_ok w :
  op_shape p quiet idempotent_ok
    (λ force, replace_line p old_line new_line force quiet idempotent_ok) w.
Proof.
  destruct (readable_text w p) as [old|] eqn:Hold.
  - destruct (decide (old_line ∈ splitlines old)) as [Hin|Hnot].
    + destruct (decide (old_line = new_line)) as [Heq|Hne].
      * left. exists (noop_code idempotent_ok),
          (MsgLineMatchedAlreadyCorrect p).
        split; [by left|]. intros force.
        rewrite (replace_line_eq _ _ _ _ _ _ _ old) by done.
        rewrite bool_decide_true, bool_decide_false by tauto. done.
      * right; right. eexists old, _. split.
        -- intros Heq. symmetry in Heq. revert Heq.
           by apply (replaced_lines_differ w p old_line new_line old).
        -- intros force.
           by rewrite (replace_line_eq _ _ _ _ _ _ _ old), !bool_decide_true.
    + left. exists EXIT_NO_MATCH, (MsgNoExactMatch p).
      split; [by right|]. intros force.
      by rewrite (replace_line_eq _ _ _ _ _ _ _ old), bool_decide_false.
  - apply read_failure_shape. intros force.
    by apply replace_line_read_failure.
Qed.

Lemma replace_line_re_shape {re : Regex} p pattern replacement quiet
    idempotent_ok w :
  op_shape p quiet idempotent_ok
    (λ force, replace_line_re p pattern replacement force quiet
                idempotent_ok) w.
Proof.
  destruct (readable_text w p) as [old|] eqn:Hold.
  - pose proof (replace_line_re_eq p pattern replacement) as Heq.
    destruct (existsb (re_search pattern) (splitlines old)) eqn:Hm.
    + destruct (existsb (changed_by pattern replacement) (splitlines old))
        eqn:Hc.
      * right; right. eexists old, _. split.
        -- apply existsb_exists in Hc as (l & Hl & Hchg).
           apply list_elem_of_In in Hl. unfold changed_by in Hchg.
           apply bool_decide_eq_true in Hchg.
           intros Hsame. symmetry in Hsame. revert Hsame.
           apply (rewritten_lines_differ old (re_sub pattern replacement) l);
             [|done..].
           by eapply readable_text_no_CR.
        -- intros force.
           by rewrite (Heq force quiet idempotent_ok w old Hold), Hm, Hc.
      * left. exists (noop_code idempotent_ok), (MsgRegexNoChanges p).
        split; [by left|]. intros force.
        by rewrite (Heq force quiet idempotent_ok w old Hold), Hm, Hc.
    + left. exists EXIT_NO_MATCH, (MsgNoRegexMatches p).
      split; [by right|]. intros force.
      by rewrite (Heq force quiet idempotent_ok w old Hold), Hm.
  - apply read_failure_shape. intros force.
    by apply replace_line_re_read_failure.
Qed.

(** ** The runs of [main] *)

Section MainRuns.
Context {re : Regex}.

Lemma main_selected a :
  main a
  = try_except
      match selected a with
      | Some f => f (force a)
      | None => eprint MsgUsage;; sys_exit EXIT_GENERIC_FAIL
      end
      except_exception.
Proof.
  unfold main, selected, except_exception.
  destruct a as [p l b s e r rr f q i]; cbn.
  destruct l as [[|? ?]|], b as [[|? ?]|], s as [[|? ?]|], e as [[|? ?]|],
    r as [[? ?]|], rr as [[? ?]|]; reflexivity.
Qed.

Lemma selected_set_force b a : selected (set_force b a) = selected a.
Proof. reflexivity. Qed.

Lemma set_force_id a : set_force (force a) a = a.
Proof. by destruct a. Qed.

Lemma selected_shape a f w :
  selected a = Some f →
  op_shape (filepath a) (quiet a) (negb (idempotent_fail a)) f w.
Proof.
  unfold selected.
  destruct (line a) as [[|? ?]|], (block a) as [[|? ?]|],
    (start a) as [[|? ?]|], (end_ a) as [[|? ?]|], (replace a) as [[? ?]|],
    (replace_re a) as [[? ?]|]; intros [= <-];
    first [apply ensure_line_shape | apply ensure_block_shape
          | apply replace_line_shape | apply replace_line_re_shape].
Qed.

Lemma run_try_exit (m : proc unit) w c w' :
  m w = (inl (SystemExit c), w') →
  run (try_except m except_exception) w = (c, w').
Proof. intros H. apply run_exit. by apply try_except_exit. Qed.

Lemma write_outcome_exit new p quiet w :
  write_outcome new p quiet w
  = (inl (SystemExit (run (write_outcome new p quiet) w).1),
     (run (write_outcome new p quiet) w).2).
Proof.
  unfold run, write_outcome.
  destruct (w_fs w !! p) as [f|]; [by destruct (f_writable f)|done].
Qed.

Lemma run_confirm old new p force quiet idempotent_ok w :
  old ≠ new →
  run (try_except (confirm_and_write old new p force quiet idempotent_ok)
         except_exception) w
  = confirmed_run old new p force quiet idempotent_ok w.
Proof.
  intros Hne. unfold confirmed_run. cbn zeta.
  pose proof (confirm_and_write_eq old new p force quiet idempotent_ok w)
    as Heq.
  rewrite bool_decide_false in Heq by done. cbn zeta in Heq.
  set (w1 := say quiet (MsgDiff old new p) w) in *.
  destruct force.
  - rewrite write_outcome_exit in Heq. erewrite run_try_exit by exact Heq.
    by destruct (run _ w1).
  - destruct (w_stdin w1) as [|resp rest].
    + unfold run, try_except. by rewrite Heq.
    + destruct (lower_is_y (strip resp)).
      * rewrite write_outcome_exit in Heq.
        erewrite run_try_exit by exact Heq. by destruct (run _ _).
      * by erewrite run_try_exit by exact Heq.
Qed.

(** Every run of [main] is of one of four kinds, whatever the force flag. *)
Lemma main_cases a w :
  (selected a = None ∧
   ∀ b, run (main (set_force b a)) w
        = (EXIT_GENERIC_FAIL, put_stderr MsgUsage w)) ∨
  (∃ c m, (c = noop_code (negb (idempotent_fail a)) ∨ c = EXIT_NO_MATCH) ∧
          ∀ b, run (main (set_force b a)) w = (c, say (quiet a) m w)) ∨
  (∃ c m, (c = EXIT_PERMISSIONS ∨ c = EXIT_NOT_FOUND) ∧
          ∀ b, run (main (set_force b a)) w = (c, say_err (quiet a) m w)) ∨
  (∃ old new, old ≠ new ∧
     ∀ b, run (main (set_force b a)) w
          = confirmed_run old new (filepath a) b (quiet a)
              (negb (idempotent_fail a)) w).
Proof.
  destruct (selected a) as [f|] eqn:Hsel.
  - right.
    assert (∀ b, main (set_force b a) = try_except (f b) except_exception)
      as Hmain.
    { intros b. by rewrite main_selected, selected_set_force, Hsel. }
    destruct (selected_shape a f w Hsel)
      as [(c & m & Hc & Hf)|[(c & m & Hc & Hf)|(old & new & Hne & Hf)]].
    + left. exists c, m. split; [done|]. intros b. rewrite Hmain.
      apply run_try_exit, Hf.
    + right; left. exists c, m. split; [done|]. intros b. rewrite Hmain.
      apply run_try_exit, Hf.
    + right; right. exists old, new. split; [done|]. intros b.
      rewrite Hmain. unfold run, try_except. rewrite Hf.
      by apply run_confirm.
  - left. split; [done|]. intros b.
    by rewrite main_selected, selected_set_force, Hsel.
Qed.

(** The same for the run with the flags as given. *)
Lemma main_run_cases a w :
  (selected a = None ∧
   run (main a) w = (EXIT_GENERIC_FAIL, put_stderr MsgUsage w)) ∨
  (∃ c m, (c = noop_code (negb (idempotent_fail a)) ∨ c = EXIT_NO_MATCH) ∧
          run (main a) w = (c, say (quiet a) m w)) ∨
  (∃ c m, (c = EXIT_PERMISSIONS ∨ c = EXIT_NOT_FOUND) ∧
          run (main a) w = (c, say_err (quiet a) m w)) ∨
  (∃ old new, old ≠ new ∧
     run (main a) w
     = confirmed_run old new (filepath a) (force a) (quiet a)
         (negb (idempotent_fail a)) w).
Proof.
  destruct (main_cases a w)
    as [[Hs H]|[(c & m & Hc & H)|[(c & m & Hc & H)|(old & new & Hne & H)]]];
    specialize (H (force a)); rewrite set_force_id in H.
  - by left.
  - right; left. by exists c, m.
  - right; right; left. by exists c, m.
  - right; right; right. by exists old, new.
Qed.

End MainRuns.

(** ** What a run of [main] does and never does *)

Lemma writes_since_nil w : writes_since w w = [].
Proof. by apply writes_since_same. Qed.

Lemma run_write_outcome new p quiet w :
  run (write_outcome new p quiet) w
  = match w_fs w !! p with
    | Some f =>
        if f_writable f
        then (EXIT_OK, say quiet (MsgUpdated p)
                         (put_file p (File new (f_readable f) true) new w))
        else (EXIT_PERMISSIONS, say_err quiet (MsgPermissionDenied p) w)
    | None =>
        (EXIT_OK,
         say quiet (MsgUpdated p) (put_file p (File new true true) new w))
    end.
Proof.
  unfold run, write_outcome.
  destruct (w_fs w !! p) as [f|]; [by destruct (f_writable f)|done].
Qed.

(** The write at the end of the shared tail, seen from a world [w1] that
    has the file system and the write log of [w]. *)
Lemma run_write_outcome_props new p quiet w w1 :
  w_fs w1 = w_fs w → w_writes w1 = w_writes w →
  let r := run (write_outcome new p quiet) w1 in
  (r.1 = EXIT_OK ∧ writable w p ∧ writes_since w r.2 = [(p, new)] ∧
   text_of r.2 p = Some new ∧
   (∀ p', p' ≠ p → w_fs r.2 !! p' = w_fs w !! p')) ∨
  (r.1 = EXIT_PERMISSIONS ∧ ¬ writable w p ∧ writes_since w r.2 = [] ∧
   w_fs r.2 = w_fs w).
Proof.
  intros Hfs Hwr r. subst r. rewrite run_write_outcome, Hfs.
  unfold writable, text_of.
  destruct (w_fs w !! p) as [f|] eqn:Hf; [destruct (f_writable f) eqn:Hw|];
    cbn [fst snd from_option].
  - left. rewrite w_fs_say. cbn [put_file w_fs]. split_and!; try done.
    + apply writes_since_app. rewrite w_writes_say. cbn. by rewrite Hwr.
    + by rewrite lookup_insert_eq.
    + intros p' Hp'. by rewrite lookup_insert_ne, Hfs.
  - right. split_and!; try done.
    + by rewrite Hw.
    + apply writes_since_same. by rewrite w_writes_say_err.
    + destruct quiet; done.
  - left. rewrite w_fs_say. cbn [put_file w_fs]. split_and!; try done.
    + apply writes_since_app. rewrite w_writes_say. cbn. by rewrite Hwr.
    + by rewrite lookup_insert_eq.
    + intros p' Hp'. by rewrite lookup_insert_ne, Hfs.
Qed.

Lemma w_stdin_say quiet m w : w_stdin (say quiet m w) = w_stdin w.
Proof. by destruct quiet. Qed.

Lemma w_fs_say_err quiet m w : w_fs (say_err quiet m w) = w_fs w.
Proof. by destruct quiet. Qed.

Ltac exit_codes :=
  unfold noop_code, EXIT_OK, EXIT_GENERIC_FAIL, EXIT_PERMISSIONS,
    EXIT_NO_MATCH, EXIT_NO_CHANGE_NEEDED, EXIT_NOT_FOUND in *.

Section MainProperties.
Context {re : Regex}.

(** X1: the exit status is one of the six codes. *)
Theorem exit_status_range a w :
  (0 ≤ (run (main a) w).1 ≤ 5)%Z.
Proof.
  destruct (main_run_cases a w)
    as [[_ H]|[(c & m & Hc & H)|[(c & m & Hc & H)|(old & new & Hne & H)]]];
    rewrite H; cbn [fst].
  - exit_codes. lia.
  - destruct Hc as [-> | ->]; exit_codes;
      [destruct (idempotent_fail a); cbn; lia|lia].
  - destruct Hc as [-> | ->]; exit_codes; lia.
  - unfold confirmed_run. cbn zeta.
    set (w1 := say (quiet a) (MsgDiff old new (filepath a)) w).
    assert (∀ w', (0 ≤ (run (write_outcome new (filepath a) (quiet a)) w').1
                   ≤ 5)%Z) as Hwrite.
    { intros w'. rewrite run_write_outcome.
      destruct (w_fs w' !! filepath a) as [f|];
        [destruct (f_writable f)|]; cbn [fst]; exit_codes; lia. }
    destruct (force a); [apply Hwrite|].
    destruct (w_stdin w1); [cbn [fst]; exit_codes; lia|].
    destruct (lower_is_y _); [apply Hwrite|].
    cbn [fst]. exit_codes. destruct (idempotent_fail a); cbn; lia.
Qed.

(** X3: without [-f] nothing is written unless the answer on standard input is
    y: when the first line, trimmed, is neither y nor Y, or there is no
    line, the file system is left as it was. *)
Theorem no_write_without_consent a w :
  force a = false →
  approves w = false →
  let r := run (main a) w in
  w_fs r.2 = w_fs w ∧ writes_since w r.2 = [].
Proof.
  intros Hforce Hno r. subst r.
  destruct (main_run_cases a w)
    as [[_ H]|[(c & m & Hc & H)|[(c & m & Hc & H)|(old & new & Hne & H)]]];
    rewrite H; cbn [snd].
  - split; [done|]. by apply writes_since_same.
  - rewrite w_fs_say. split; [done|].
    apply writes_since_same, w_writes_say.
  - rewrite w_fs_say_err. split; [done|].
    apply writes_since_same, w_writes_say_err.
  - unfold confirmed_run, approves in *. cbn zeta.
    rewrite Hforce, w_stdin_say. destruct (w_stdin w) as [|resp rest].
    + cbn. rewrite w_fs_say. split; [done|].
      apply writes_since_same. cbn. apply w_writes_say.
    + rewrite Hno. cbn. rewrite w_fs_say. split; [done|].
      apply writes_since_same. cbn. apply w_writes_say.
Qed.

End MainProperties.

Lemma no_write_without_consent_witness :
  let w := World {[ conf := File [] true true ]} [lit " n "] [] [] [] in
  let r := run (@main literal_regex
                  (args_line conf (lit "x") false false false)) w in
  w_fs r.2 = w_fs w ∧ writes_since w r.2 = [].
Proof.
  apply (@no_write_without_consent literal_regex
           (args_line conf (lit "x") false false false)
           (World {[ conf := File [] true true ]} [lit " n "] [] [] []));
    reflexivity.
Defined.

Section MainEffects.
Context {re : Regex}.

(** What a run leaves behind: paths other than the target are untouched,
    and either nothing is written and the file system is as before, or the
    target is written once and the status is 0. *)
Lemma main_run_effects a w :
  let r := run (main a) w in
  (∀ p', p' ≠ filepath a → w_fs r.2 !! p' = w_fs w !! p') ∧
  ((writes_since w r.2 = [] ∧ w_fs r.2 = w_fs w ∧
    (r.1 = EXIT_OK → idempotent_fail a = false)) ∨
   (∃ s, writes_since w r.2 = [(filepath a, s)] ∧
         text_of r.2 (filepath a) = Some s ∧ r.1 = EXIT_OK ∧
         writable w (filepath a))).
Proof.
  assert (∀ (c : Z) (w' : world),
            w_fs w' = w_fs w → w_writes w' = w_writes w →
            (c = EXIT_OK → idempotent_fail a = false) →
            (∀ p', p' ≠ filepath a → w_fs (c, w').2 !! p' = w_fs w !! p') ∧
            ((writes_since w (c, w').2 = [] ∧ w_fs (c, w').2 = w_fs w ∧
              ((c, w').1 = EXIT_OK → idempotent_fail a = false)) ∨
             (∃ s, writes_since w (c, w').2 = [(filepath a, s)] ∧
                   text_of (c, w').2 (filepath a) = Some s ∧
                   (c, w').1 = EXIT_OK ∧ writable w (filepath a))))
    as Hquiet.
  { intros c w' Hfs Hwr Hc. cbn [fst snd]. split.
    - intros p' _. by rewrite Hfs.
    - left. split_and!; [by apply writes_since_same|done|done]. }
  intros r. subst r.
  destruct (main_run_cases a w)
    as [[_ H]|[(c & m & Hc & H)|[(c & m & Hc & H)|(old & new & Hne & H)]]];
    rewrite H.
  - apply Hquiet; [done|done|]. exit_codes. lia.
  - apply Hquiet; [apply w_fs_say|apply w_writes_say|].
    destruct Hc as [-> | ->]; exit_codes;
      [by destruct (idempotent_fail a)|lia].
  - apply Hquiet; [apply w_fs_say_err|apply w_writes_say_err|].
    destruct Hc as [-> | ->]; exit_codes; lia.
  - unfold confirmed_run. cbn zeta.
    set (w1 := say (quiet a) (MsgDiff old new (filepath a)) w).
    assert (w_fs w1 = w_fs w) as Hfs1 by apply w_fs_say.
    assert (w_writes w1 = w_writes w) as Hwr1 by apply w_writes_say.
    assert (∀ w2, w_fs w2 = w_fs w → w_writes w2 = w_writes w →
              let r := run (write_outcome new (filepath a) (quiet a)) w2 in
              (∀ p', p' ≠ filepath a → w_fs r.2 !! p' = w_fs w !! p') ∧
              ((writes_since w r.2 = [] ∧ w_fs r.2 = w_fs w ∧
                (r.1 = EXIT_OK → idempotent_fail a = false)) ∨
               (∃ s, writes_since w r.2 = [(filepath a, s)] ∧
                     text_of r.2 (filepath a) = Some s ∧ r.1 = EXIT_OK ∧
                     writable w (filepath a)))) as Hwrite.
    { intros w2 Hfs2 Hwr2.
      pose proof (run_write_outcome_props new (filepath a) (quiet a) w w2
                    Hfs2 Hwr2) as Hp.
      cbn zeta in *.
      destruct Hp as [(Hc & Hw & Hws & Ht & Hframe)|(Hc & Hw & Hws & Hfs)].
      - split; [done|]. right. by exists new.
      - split; [intros p' _; by rewrite Hfs|]. left. split_and!; [done..|].
        rewrite Hc. exit_codes. lia. }
    destruct (force a); [by apply Hwrite|].
    destruct (w_stdin w1) as [|resp rest].
    + apply Hquiet; [done|done|]. exit_codes. lia.
    + destruct (lower_is_y (strip resp)).
      * by apply Hwrite.
      * apply Hquiet; [done|done|].
        exit_codes. by destruct (idempotent_fail a).
Qed.


(** X7: with [-I], status 0 means exactly that the target was written. *)
Theorem idempotent_fail_zero_iff_written a w :
  idempotent_fail a = true →
  let r := run (main a) w in
  r.1 = EXIT_OK ↔ ∃ s, writes_since w r.2 = [(filepath a, s)].
Proof.
  intros HI r. subst r.
  destruct (main_run_effects a w) as [_ [(Hws & _ & Hc)|(s & Hws & _ & Hc & _)]].
  - split.
    + intros H0. apply Hc in H0. congruence.
    + intros [s Hs]. rewrite Hs in Hws. discriminate.
  - split; [by exists s|done].
Qed.

(** X8: a target that may not be written is never changed, and with [-I] the
    status is then never 0. *)
Theorem read_only_target_unchanged a w f :
  w_fs w !! filepath a = Some f →
  f_writable f = false →
  let r := run (main a) w in
  w_fs r.2 = w_fs w ∧ writes_since w r.2 = [] ∧
  (idempotent_fail a = true → r.1 ≠ EXIT_OK).
Proof.
  intros Hf Hw r. subst r.
  destruct (main_run_effects a w)
    as [_ [(Hws & Hfs & Hc)|(s & _ & _ & _ & Hwr)]].
  - split_and!; [done..|]. intros HI H0. apply Hc in H0. congruence.
  - unfold writable in Hwr. rewrite Hf in Hwr. cbn in Hwr. congruence.
Qed.

(** X4: answering y at the prompt is as good as [-f]: the same status, the same
    file system and the same write. *)
Theorem approved_like_forced a w :
  force a = false →
  approves w = true →
  let r := run (main a) w in
  let rf := run (main (set_force true a)) w in
  r.1 = rf.1 ∧ w_fs r.2 = w_fs rf.2 ∧
  writes_since w r.2 = writes_since w rf.2.
Proof.
  intros Hforce Hyes r rf. subst r rf.
  destruct (main_cases a w)
    as [[_ H]|[(c & m & Hc & H)|[(c & m & Hc & H)|(old & new & Hne & H)]]];
    pose proof (H (force a)) as Hr; rewrite set_force_id in Hr;
    rewrite Hr, (H true); [done..|].
  rewrite Hforce. unfold confirmed_run, approves in *. cbn zeta.
  rewrite w_stdin_say. destruct (w_stdin w) as [|resp rest]; [done|].
  rewrite Hyes, !run_write_outcome. cbn [put_stdout take_line w_fs].
  destruct (w_fs (say (quiet a) (MsgDiff old new (filepath a)) w)
            !! filepath a) as [f|]; [destruct (f_writable f)|];
    cbn [fst snd]; unfold writes_since;
    destruct (quiet a); cbn; done.
Qed.


(** X6: end of input at the prompt, for a change that [-f] would have written:
    [input] raises [EOFError], which [main] reports on standard error,
    quiet or not, and the status is 1; nothing is written. *)
Theorem prompt_at_end_of_input a w :
  force a = false →
  w_stdin w = [] →
  writes_since w (run (main (set_force true a)) w).2 ≠ [] →
  let r := run (main a) w in
  r.1 = EXIT_GENERIC_FAIL ∧
  w_fs r.2 = w_fs w ∧ writes_since w r.2 = [] ∧
  w_stderr r.2 = w_stderr w ++ [MsgUnhandled EOFError] ∧
  last (w_stdout r.2) = Some MsgPrompt.
Proof.
  intros Hforce Hin Hwould r. subst r.
  destruct (main_cases a w)
    as [[_ H]|[(c & m & Hc & H)|[(c & m & Hc & H)|(old & new & Hne & H)]]];
    pose proof (H (force a)) as Hr; rewrite set_force_id in Hr;
    rewrite (H true) in Hwould; cbn [snd] in Hwould.
  - destruct Hwould. by apply writes_since_same.
  - destruct Hwould. apply writes_since_same, w_writes_say.
  - destruct Hwould. apply writes_since_same, w_writes_say_err.
  - rewrite Hr, Hforce. unfold confirmed_run. cbn zeta.
    rewrite w_stdin_say, Hin. cbn [fst snd].
    split_and!.
    + done.
    + cbn. by rewrite w_fs_say.
    + apply writes_since_same. cbn. apply w_writes_say.
    + cbn. by destruct (quiet a).
    + cbn. by rewrite last_snoc.
Qed.

End MainEffects.

Section MainOutput.
Context {re : Regex}.


(** X11: without an operation the status is 1 and the usage error goes to
    standard error, quiet or not; nothing is read or written. An option
    given as the empty string counts as not given, and [--block] counts
    only with both [--start] and [--end]. *)
Theorem no_operation_is_usage_error a w :
  (line a = None ∨ line a = Some []) →
  (block a = None ∨ start a = None ∨ start a = Some [] ∨
   end_ a = None ∨ end_ a = Some []) →
  replace a = None →
  replace_re a = None →
  run (main a) w = (EXIT_GENERIC_FAIL, put_stderr MsgUsage w).
Proof.
  intros Hl Hb Hr Hrr.
  assert (selected a = None) as Hsel.
  { unfold selected. rewrite Hr, Hrr.
    destruct Hl as [-> | ->];
      destruct (block a) as [[|? ?]|], (start a) as [[|? ?]|],
        (end_ a) as [[|? ?]|]; try done;
      destruct Hb as [?|[?|[?|[?|?]]]]; congruence. }
  by rewrite main_selected, Hsel.
Qed.

End MainOutput.


Lemma no_operation_is_usage_error_witness :
  run (@main literal_regex
         (Args conf (Some []) (Some [lit "A"]) (Some (lit "# S")) None None
               None true true false)) world_empty
  = (1%Z, put_stderr MsgUsage world_empty).
Proof.
  apply (@no_operation_is_usage_error literal_regex
           (Args conf (Some []) (Some [lit "A"]) (Some (lit "# S")) None None
                 None true true false) world_empty).
  - by right.
  - right; right; right; by left.
  - reflexivity.
  - reflexivity.
Defined.

Lemma idempotent_fail_zero_iff_written_witness :
  let a := args_line conf (lit "x") true true true in
  let r := run (@main literal_regex a) (world_with []) in
  r.1 = EXIT_OK ↔ ∃ s, writes_since (world_with []) r.2 = [(conf, s)].
Proof.
  apply (@idempotent_fail_zero_iff_written literal_regex
           (args_line conf (lit "x") true true true) (world_with [])).
  reflexivity.
Defined.

Lemma read_only_target_unchanged_witness :
  let a := args_line conf (lit "x") true true true in
  let r := run (@main literal_regex a) world_read_only in
  w_fs r.2 = w_fs world_read_only ∧ writes_since world_read_only r.2 = [] ∧
  (idempotent_fail a = true → r.1 ≠ EXIT_OK).
Proof.
  apply (@read_only_target_unchanged literal_regex
           (args_line conf (lit "x") true true true) world_read_only
           (File (lit "a" ++ [LF]) true false)); reflexivity.
Defined.

Lemma approved_like_forced_witness :
  let w := World {[ conf := File [] true true ]} [lit " Y "] [] [] [] in
  let a := args_line conf (lit "x") false true false in
  let r := run (@main literal_regex a) w in
  let rf := run (@main literal_regex (set_force true a)) w in
  r.1 = rf.1 ∧ w_fs r.2 = w_fs rf.2 ∧
  writes_since w r.2 = writes_since w rf.2.
Proof.
  apply (@approved_like_forced literal_regex
           (args_line conf (lit "x") false true false)
           (World {[ conf := File [] true true ]} [lit " Y "] [] [] []));
    reflexivity.
Defined.


Lemma prompt_at_end_of_input_witness :
  let w := World {[ conf := File [] true true ]} [] [] [] [] in
  let r := run (@main literal_regex
                  (args_line conf (lit "x") false true false)) w in
  r.1 = 1%Z ∧ w_fs r.2 = w_fs w ∧ writes_since w r.2 = [] ∧
  w_stderr r.2 = w_stderr w ++ [MsgUnhandled EOFError] ∧
  last (w_stdout r.2) = Some MsgPrompt.
Proof.
  apply (@prompt_at_end_of_input literal_regex
           (args_line conf (lit "x") false true false)
           (World {[ conf := File [] true true ]} [] [] [] []));
    [reflexivity..|].
  vm_compute. discriminate.
Defined.

(** ** Ensure-Line, run again and on plain text *)

Lemma no_linebreak_no_CR l : no_linebreak l → CR ∉ l.
Proof.
  intros Hl Hin. unfold no_linebreak in Hl. rewrite Forall_forall in Hl.
  by specialize (Hl CR Hin).
Qed.

Lemma unlines_no_CR ls : Forall no_linebreak ls → CR ∉ unlines ls.
Proof.
  induction 1 as [|l ls Hl _ IH]; [apply not_elem_of_nil|].
  rewrite unlines_cons. apply not_elem_of_app. split.
  - by apply no_linebreak_no_CR.
  - by apply not_elem_of_cons.
Qed.

Lemma universal_newlines_id s : CR ∉ s → universal_newlines s = s.
Proof.
  induction s as [|c s IH]; [done|]. intros [Hc Hs]%not_elem_of_cons.
  rewrite universal_newlines_cons by done. by rewrite IH.
Qed.


Lemma readable_text_say w p quiet m :
  readable_text (say quiet m w) p = readable_text w p.
Proof. unfold readable_text. by rewrite w_fs_say. Qed.


Lemma readable_text_forced_write old new p quiet w :
  readable_text w p = Some old →
  readable_text (forced_write old new p quiet w) p
  = Some (universal_newlines new).
Proof.
  intros Hold. unfold readable_text, forced_write in *.
  rewrite w_fs_say. cbn. rewrite lookup_insert_eq. cbn.
  destruct (w_fs w !! p) as [f|]; [|done]. cbn.
  by destruct (f_readable f).
Qed.



(** X15: a line that holds a line boundary is never found in the file: every
    forced run appends it again. *)
Theorem ensure_line_with_line_boundary w p line quiet idempotent_ok old c :
  ensure_text w p = Some old →
  writable w p →
  c ∈ line → is_linebreak c = true →
  run (ensure_line p line true quiet idempotent_ok) w
  = (EXIT_OK,
     forced_write old (join [LF] (splitlines old ++ [line]) ++ [LF]) p quiet
       w).
Proof.
  intros Hold Hw Hc Hlb. apply ensure_line_forced; [done..|].
  intros Hin.
  pose proof (splitlines_no_linebreak old) as Hall.
  rewrite Forall_forall in Hall. specialize (Hall line Hin).
  unfold no_linebreak in Hall. rewrite Forall_forall in Hall.
  specialize (Hall c Hc). congruence.
Qed.

Lemma ensure_line_with_line_boundary_witness :
  let old := unlines [lit "a"] in
  let line := lit "a" ++ [LF] in
  run (ensure_line conf line true true true) (world_with old)
  = (0%Z, forced_write old (lit "a" ++ [LF] ++ lit "a" ++ [LF; LF]) conf true
            (world_with old)).
Proof.
  apply (ensure_line_with_line_boundary (world_with (unlines [lit "a"])) conf
           (lit "a" ++ [LF]) true true (unlines [lit "a"]) LF);
    [reflexivity|reflexivity| |reflexivity].
  right. left.
Defined.

Lemma unlines_app xs ys : unlines (xs ++ ys) = unlines xs ++ unlines ys.
Proof. unfold unlines. by rewrite map_app, concat_app. Qed.

Lemma lf_only_cons c s :
  lf_only (c :: s) → (is_linebreak c = true → c = LF) ∧ lf_only s.
Proof. intros H. by apply Forall_cons in H. Qed.

(** The lines of a text with \n as only line boundary, each followed by \n,
    are the text itself, plus the final \n if it lacks one. *)
Lemma unlines_splitlines s :
  lf_only s → unlines (splitlines s) = s ++ missing_newline s.
Proof.
  unfold missing_newline.
  induction s as [|c s IH]; [done|].
  intros [Hc Hs]%lf_only_cons. specialize (IH Hs).
  destruct (is_linebreak c) eqn:Hlb.
  - rewrite (Hc eq_refl) in *. rewrite splitlines_LF, unlines_cons. cbn [app].
    rewrite IH. destruct s as [|d s]; [done|].
    by rewrite last_cons_cons.
  - rewrite splitlines_cons_text by done.
    destruct s as [|d s].
    + cbn. destruct (N.eqb_spec c LF) as [->|_]; [done|done].
    + assert (splitlines (d :: s) ≠ []) as Hne
        by by apply splitlines_nonempty.
      destruct (splitlines (d :: s)) as [|l ls]; [done|].
      cbn [cons_first]. rewrite unlines_cons in *. cbn [app].
      rewrite last_cons_cons. f_equal. exact IH.
Qed.

(** X16: on a text with \n as only line boundary, Ensure-Line keeps the old text
    byte for byte, adds the final \n if the text lacks one, and appends the
    line and a \n. *)
Theorem ensure_line_keeps_plain_text w p line quiet idempotent_ok old :
  ensure_text w p = Some old →
  writable w p →
  line ∉ splitlines old →
  lf_only old →
  ∃ w', run (ensure_line p line true quiet idempotent_ok) w = (EXIT_OK, w') ∧
        text_of w' p = Some (old ++ missing_newline old ++ line ++ [LF]).
Proof.
  intros Hold Hw Hnot Hlf. eexists. split.
  - by apply ensure_line_forced.
  - rewrite text_of_forced_write. f_equal.
    rewrite join_LF_unlines by (by destruct (splitlines old)).
    rewrite unlines_app, unlines_splitlines by done.
    unfold unlines. cbn. by rewrite app_nil_r, <-!app_assoc.
Qed.

Lemma ensure_line_keeps_plain_text_witness :
  let old := lit "a" ++ [LF; LF] ++ lit "b" in
  ∃ w', run (ensure_line conf (lit "c") true true true) (world_with old)
        = (0%Z, w') ∧
        text_of w' conf = Some (old ++ [LF] ++ lit "c" ++ [LF]).
Proof.
  apply (ensure_line_keeps_plain_text
           (world_with (lit "a" ++ [LF; LF] ++ lit "b")) conf (lit "c") true
           true (lit "a" ++ [LF; LF] ++ lit "b")); [reflexivity..| |].
  - vm_compute. intros H.
    repeat (apply elem_of_cons in H as [H|H]; [discriminate H|]).
    by apply elem_of_nil in H.
  - unfold lf_only. repeat constructor; intros H; vm_compute in H;
      (reflexivity || discriminate H).
Defined.

(** ** Replace-Exact-Line, run again *)

Lemma replaced_no_linebreak old_line new_line ls :
  no_linebreak new_line → Forall no_linebreak ls →
  Forall no_linebreak (map (replaced old_line new_line) ls).
Proof.
  intros Hn Hls. apply Forall_forall. intros x Hx.
  apply list_elem_of_fmap in Hx as (l & -> & Hl).
  rewrite Forall_forall in Hls. unfold replaced.
  case_bool_decide; [done|by apply Hls].
Qed.

Lemma not_elem_of_replaced old_line new_line ls :
  old_line ≠ new_line → old_line ∉ map (replaced old_line new_line) ls.
Proof.
  intros Hne Hin. apply list_elem_of_fmap in Hin as (l & Heq & _).
  unfold replaced in Heq. case_bool_decide; congruence.
Qed.

(** X18: after a forced Replace-Exact-Line with a new line that holds no line
    boundary, the file has the old lines with every [old_line] replaced, as
    many lines as before, and no [old_line] left: the same command run
    again reports "no match" with status 3 and writes nothing. *)
Theorem replace_line_second_run w p old_line new_line quiet idempotent_ok old
    force' quiet' idempotent_ok' :
  readable_text w p = Some old →
  writable w p →
  old_line ≠ new_line →
  old_line ∈ splitlines old →
  no_linebreak new_line →
  let w1 := (run (replace_line p old_line new_line true quiet idempotent_ok)
               w).2 in
  (splitlines <$> text_of w1 p)
  = Some (map (replaced old_line new_line) (splitlines old)) ∧
  run (replace_line p old_line new_line force' quiet' idempotent_ok') w1
  = (EXIT_NO_MATCH, say quiet' (MsgNoExactMatch p) w1).
Proof.
  intros Hold Hw Hne Hin Hnew w1. subst w1.
  rewrite (replace_line_forced w p old_line new_line quiet idempotent_ok old)
    by done.
  cbn [snd].
  set (ls := map (replaced old_line new_line) (splitlines old)).
  assert (ls ≠ []) as Hls.
  { subst ls. destruct (splitlines old); [by apply elem_of_nil in Hin|done]. }
  assert (Forall no_linebreak ls) as Hnolb.
  { apply replaced_no_linebreak; [done|apply splitlines_no_linebreak]. }
  rewrite join_LF_unlines by done.
  split.
  - rewrite text_of_forced_write. cbn. by rewrite splitlines_unlines.
  - apply run_exit.
    rewrite (replace_line_eq _ _ _ _ _ _ _ (unlines ls)).
    + rewrite splitlines_unlines by done.
      rewrite bool_decide_false; [done|].
      by apply not_elem_of_replaced.
    + rewrite (readable_text_forced_write old _ p quiet w Hold).
      f_equal. apply universal_newlines_id. by apply unlines_no_CR.
Qed.

Lemma replace_line_second_run_witness :
  let w := world_with (unlines [lit "x=1"; lit "y=2"]) in
  let w1 := (run (replace_line conf (lit "x=1") (lit "x=9") true true true)
               w).2 in
  (splitlines <$> text_of w1 conf) = Some [lit "x=9"; lit "y=2"] ∧
  run (replace_line conf (lit "x=1") (lit "x=9") true true true) w1
  = (3%Z, w1).
Proof.
  apply (replace_line_second_run
           (world_with (unlines [lit "x=1"; lit "y=2"])) conf (lit "x=1")
           (lit "x=9") true true (unlines [lit "x=1"; lit "y=2"])
           true true true).
  - reflexivity.
  - reflexivity.
  - discriminate.
  - vm_compute. left.
  - by repeat constructor.
Defined.

(** X19: replacing a line by itself: when the line is there, the outcome is
    "already correct" (the status for "no change needed"), not "no match";
    nothing is written. *)
Theorem replace_line_by_itself w p the_line force quiet idempotent_ok old :
  readable_text w p = Some old →
  the_line ∈ splitlines old →
  run (replace_line p the_line the_line force quiet idempotent_ok) w
  = (noop_code idempotent_ok, say quiet (MsgLineMatchedAlreadyCorrect p) w).
Proof.
  intros Hold Hin. apply run_exit.
  rewrite (replace_line_eq _ _ _ _ _ _ _ old) by done.
  rewrite bool_decide_true by done.
  by rewrite bool_decide_false by (intros H; by apply H).
Qed.

Lemma replace_line_by_itself_witness :
  let w := world_with (lit "x = y" ++ [LF]) in
  run (replace_line conf (lit "x = y") (lit "x = y") false true false) w
  = (4%Z, w).
Proof.
  apply (replace_line_by_itself (world_with (lit "x = y" ++ [LF])) conf
           (lit "x = y") false true false (lit "x = y" ++ [LF]));
    [reflexivity|].
  vm_compute. left.
Defined.

(** ** A missing file *)



(** ** Ensure-Block at the edges *)

Lemma lstrip_whitespace ws s : whitespace ws → lstrip (ws ++ s) = lstrip s.
Proof.
  induction 1 as [|c ws Hc _ IH]; [done|]. cbn. by rewrite Hc.
Qed.

Lemma rstrip_whitespace s ws : whitespace ws → rstrip (s ++ ws) = rstrip s.
Proof.
  intros Hws. unfold rstrip. rewrite reverse_app.
  by rewrite lstrip_whitespace by by apply whitespace_reverse.
Qed.

Lemma rstrip_all_whitespace ws : whitespace ws → rstrip ws = [].
Proof.
  intros Hws. by rewrite <-(app_nil_l ws), rstrip_whitespace.
Qed.

Lemma whitespace_LF : whitespace [LF].
Proof. by repeat constructor. Qed.






(** X21: when both markers are found and only white space comes before the
    first start marker, the candidate starts with a newline. A file that
    does not start with a newline is then never "already correct": forced,
    Ensure-Block writes each time. *)
Theorem ensure_block_at_top_never_settles w p block_lines marker_start
    marker_end quiet idempotent_ok old i j :
  ensure_text w p = Some old →
  writable w p →
  find marker_start old = Some i →
  find marker_end old = Some j →
  whitespace (take i old) →
  head old ≠ Some LF →
  run (ensure_block p block_lines marker_start marker_end true quiet
         idempotent_ok) w
  = (EXIT_OK,
     forced_write old
       (LF :: canonical_block block_lines marker_start marker_end
        ++ LF :: lstrip (drop (j + length marker_end) old)) p quiet w).
Proof.
  intros Hold Hw Hi Hj Hws Hhead. apply run_exit.
  pose proof (ensure_block_eq p block_lines marker_start marker_end true
                quiet idempotent_ok w old Hold) as Heq.
  cbn zeta in Heq. rewrite Heq. unfold block_candidate.
  rewrite Hi, Hj, rstrip_all_whitespace by done. cbn [app].
  assert (old ≠ LF :: canonical_block block_lines marker_start marker_end
                ++ LF :: lstrip (drop (j + length marker_end) old)) as Hne.
  { intros Hsame. apply Hhead. by rewrite Hsame. }
  rewrite bool_decide_false by done. by apply confirm_forced.
Qed.

Lemma ensure_block_at_top_never_settles_witness :
  let old := unlines [lit "# ST"; lit "one"; lit "# EN"] in
  run (ensure_block conf [lit "one"] (lit "# ST") (lit "# EN") true true true)
      (world_with old)
  = (0%Z, forced_write old (LF :: old) conf true (world_with old)).
Proof.
  apply (ensure_block_at_top_never_settles
           (world_with (unlines [lit "# ST"; lit "one"; lit "# EN"])) conf
           [lit "one"] (lit "# ST") (lit "# EN") true true
           (unlines [lit "# ST"; lit "one"; lit "# EN"]) 0 9);
    [reflexivity..| |discriminate].
  constructor.
Defined.

(** X22: Ensure-Block reports "already correct" and writes nothing when the old
    text is: a text without trailing white space, a newline, the canonical
    block, a newline, a text without leading white space, with the first
    occurrences of the two markers being those of the block. *)
Theorem ensure_block_already_correct w p block_lines marker_start marker_end
    force quiet idempotent_ok old before after j :
  let block := canonical_block block_lines marker_start marker_end in
  ensure_text w p = Some old →
  old = before ++ [LF] ++ block ++ [LF] ++ after →
  rstrip before = before →
  lstrip after = after →
  find marker_start old = Some (S (length before)) →
  find marker_end old = Some j →
  (j + length marker_end = S (length before) + length block)%nat →
  run (ensure_block p block_lines marker_start marker_end force quiet
         idempotent_ok) w
  = (noop_code idempotent_ok, say quiet (MsgBlockAlreadyCorrect p) w).
Proof.
  intros block Hold Hshape Hb Ha Hi Hj Hend. apply run_exit.
  pose proof (ensure_block_eq p block_lines marker_start marker_end force
                quiet idempotent_ok w old Hold) as Heq.
  cbn zeta in Heq. rewrite Heq. unfold block_candidate.
  rewrite Hi, Hj, Hend. fold block.
  assert (take (S (length before)) old = before ++ [LF]) as ->.
  { rewrite Hshape, app_assoc. apply take_app_length'.
    rewrite length_app. cbn. lia. }
  assert (drop (S (length before) + length block) old = LF :: after) as ->.
  { rewrite Hshape.
    replace (before ++ [LF] ++ block ++ [LF] ++ after)
      with ((before ++ [LF] ++ block) ++ LF :: after)
      by by rewrite <-!app_assoc.
    apply drop_app_length'. rewrite !length_app. cbn. lia. }
  rewrite (rstrip_whitespace before [LF]) by apply whitespace_LF.
  change (LF :: after) with ([LF] ++ after).
  rewrite (lstrip_whitespace [LF] after) by apply whitespace_LF.
  rewrite Hb, Ha, <-Hshape. by rewrite bool_decide_true.
Qed.

Lemma ensure_block_already_correct_witness :
  let old := unlines [lit "before"; lit "# BEGIN"; lit "A"; lit "B";
                      lit "# END"; lit "after"] in
  run (ensure_block conf [lit "A"; lit "B"] (lit "# BEGIN") (lit "# END")
         false true false) (world_with old)
  = (4%Z, world_with old).
Proof.
  apply (ensure_block_already_correct
           (world_with (unlines [lit "before"; lit "# BEGIN"; lit "A";
                                 lit "B"; lit "# END"; lit "after"]))
           conf [lit "A"; lit "B"] (lit "# BEGIN") (lit "# END") false true
           false
           (unlines [lit "before"; lit "# BEGIN"; lit "A"; lit "B";
                     lit "# END"; lit "after"])
           (lit "before") (lit "after" ++ [LF]) 19); reflexivity.
Defined.

(** ** Which status comes from where *)

Lemma run_confirm_status old new p force quiet idempotent_ok w :
  let c := (run (confirm_and_write old new p force quiet idempotent_ok) w).1 in
  c = EXIT_OK ∨ c = EXIT_GENERIC_FAIL ∨ c = EXIT_PERMISSIONS
  ∨ c = EXIT_NO_CHANGE_NEEDED.
Proof.
  cbn zeta. unfold run. rewrite confirm_and_write_eq.
  assert (∀ w', let c := (let (r, w'') := write_outcome new p quiet w' in
                          match r with
                          | inl (SystemExit c) => (c, w'')
                          | inl _ => (1%Z, w'')
                          | inr _ => (0%Z, w'')
                          end).1 in
                c = EXIT_OK ∨ c = EXIT_GENERIC_FAIL ∨ c = EXIT_PERMISSIONS
                ∨ c = EXIT_NO_CHANGE_NEEDED) as Hwrite.
  { intros w'. cbn zeta. unfold write_outcome.
    destruct (w_fs w' !! p) as [f|]; [destruct (f_writable f)|]; cbn; auto. }
  case_bool_decide.
  - destruct idempotent_ok; cbn; auto.
  - cbn zeta. destruct force; [apply Hwrite|].
    destruct (w_stdin _) as [|resp rest]; [cbn; auto|].
    destruct (lower_is_y _); [apply Hwrite|].
    destruct idempotent_ok; cbn; auto.
Qed.

(** X12: the two ensure operations never end with "no match" (3) or "not
    found" (5). *)
Theorem ensure_status_never_no_match w p force quiet idempotent_ok :
  (∀ line,
     let c := (run (ensure_line p line force quiet idempotent_ok) w).1 in
     c ≠ EXIT_NO_MATCH ∧ c ≠ EXIT_NOT_FOUND) ∧
  (∀ block_lines marker_start marker_end,
     let c := (run (ensure_block p block_lines marker_start marker_end force
                      quiet idempotent_ok) w).1 in
     c ≠ EXIT_NO_MATCH ∧ c ≠ EXIT_NOT_FOUND).
Proof.
  assert (∀ c : Z,
            c = EXIT_OK ∨ c = EXIT_GENERIC_FAIL ∨ c = EXIT_PERMISSIONS
            ∨ c = EXIT_NO_CHANGE_NEEDED →
            c ≠ EXIT_NO_MATCH ∧ c ≠ EXIT_NOT_FOUND) as Hcodes.
  { intros c [-> |[-> |[-> | ->]]]; by split. }
  split.
  - intros line. cbn zeta. apply Hcodes.
    destruct (ensure_text w p) as [old|] eqn:Hold.
    + unfold run. rewrite (ensure_line_eq _ _ _ _ _ _ old) by done.
      case_bool_decide.
      * destruct idempotent_ok; cbn; auto.
      * apply (run_confirm_status old _ p force quiet idempotent_ok w).
    + apply ensure_text_None in Hold as (f & Hf & Hr).
      unfold run. rewrite (ensure_line_unreadable _ _ _ _ _ _ f) by done.
      cbn. auto.
  - intros block_lines marker_start marker_end. cbn zeta. apply Hcodes.
    destruct (ensure_text w p) as [old|] eqn:Hold.
    + unfold run.
      pose proof (ensure_block_eq p block_lines marker_start marker_end force
                    quiet idempotent_ok w old Hold) as Heq.
      cbn zeta in Heq. rewrite Heq. case_bool_decide.
      * destruct idempotent_ok; cbn; auto.
      * apply (run_confirm_status old _ p force quiet idempotent_ok w).
    + apply ensure_text_None in Hold as (f & Hf & Hr).
      unfold run.
      rewrite (ensure_block_unreadable _ _ _ _ _ _ _ _ f) by done.
      cbn. auto.
Qed.

Section ReplaceStatus.
Context {re : Regex}.


(** X10: without [-q] every run prints something: the usage error, a message
    about its outcome, or the diff of the change it offers. *)
Theorem loud_run_prints a w :
  quiet a = false →
  let r := run (main a) w in
  (length (w_stdout w) + length (w_stderr w)
   < length (w_stdout r.2) + length (w_stderr r.2))%nat.
Proof.
  intros Hq r. subst r.
  destruct (main_run_cases a w)
    as [[Hs H]|[(c & m & Hc & H)|[(c & m & Hc & H)|(old & new & Hne & H)]]];
    rewrite H, ?Hq; cbn [snd say say_err put_stdout put_stderr w_stdout
                           w_stderr]; rewrite ?length_app; cbn [length];
    try lia.
  unfold confirmed_run. cbn zeta. cbn [say].
  set (w1 := put_stdout (MsgDiff old new (filepath a)) w).
  assert (∀ w2, (length (w_stdout w2) + length (w_stderr w2)
                 ≤ length (w_stdout
                     (run (write_outcome new (filepath a) false) w2).2)
                   + length (w_stderr
                       (run (write_outcome new (filepath a) false) w2).2))%nat)
    as Hwrite.
  { intros w2. rewrite run_write_outcome.
    destruct (w_fs w2 !! filepath a) as [f|]; [destruct (f_writable f)|];
      cbn; rewrite ?length_app; lia. }
  assert (length (w_stdout w1) = S (length (w_stdout w))) as Hout
    by (cbn; rewrite length_app; cbn; lia).
  assert (w_stderr w1 = w_stderr w) as Herr by done.
  destruct (force a).
  - specialize (Hwrite w1). rewrite Hout, Herr in Hwrite. lia.
  - destruct (w_stdin w1) as [|resp rest].
    + cbn. rewrite !length_app. cbn. lia.
    + destruct (lower_is_y (strip resp)).
      * specialize (Hwrite (take_line rest (put_stdout MsgPrompt w1))).
        cbn [take_line put_stdout w_stdout w_stderr] in Hwrite.
        rewrite length_app, Hout, Herr in Hwrite. cbn [length] in Hwrite.
        lia.
      * cbn. rewrite !length_app. cbn. lia.
Qed.

End ReplaceStatus.

Lemma loud_run_prints_witness :
  let w := world_with (lit "a" ++ [LF]) in
  let r := run (@main literal_regex (args_line conf (lit "a") true false false))
               w in
  (length (w_stdout w) + length (w_stderr w)
   < length (w_stdout r.2) + length (w_stderr r.2))%nat.
Proof.
  apply (@loud_run_prints literal_regex
           (args_line conf (lit "a") true false false)
           (world_with (lit "a" ++ [LF]))).
  reflexivity.
Defined.
